(** * Verification of the analysis-report parser and graph annotator

    Shallow embedding of [cuda/src/playground/cudaGraphTest.cu]:
    the constructor of [MemRedAnalysisParser], which reads the report
    [./.memred.memory.analysis.out] into a map from function names to
    [KernelInfo] records, and [analyzeGraph], which walks the kernel
    nodes of a captured graph and prints the recorded effects next to
    the runtime values of the pointer arguments.

    The C++ stream library is modelled by its specified behaviour on an
    in-memory character buffer: the state of a stream is the unread
    characters together with [eofbit] and [failbit]. *)

From Stdlib Require Import ZArith List Ascii String Bool Lia.
From stdpp Require Import base option list strings gmap.

Local Open Scope Z_scope.

(** ** Machine integers *)

(** [size_t] is 64 bits wide, [int] is 32 bits wide (LP64). *)
Definition SIZE_MAX : Z := 2 ^ 64 - 1.

Definition wrap_size_t (z : Z) : Z := z mod 2 ^ 64.

(** Conversion [size_t -> int] as done when the pair
    [{argumentIndex, ptrArgEffect}] is built (line 79): the value is
    reduced modulo [2^32] into the signed range. *)
Definition int_of_size_t (z : Z) : Z := (z + 2 ^ 31) mod 2 ^ 32 - 2 ^ 31.

(** ** std::string *)

(** [std::string::erase(pos)]: drops the characters from [pos] to the end;
    throws [std::out_of_range] (here [None]) when [pos > size()]. *)
Definition erase (str : string) (pos : Z) : option string :=
  if pos <=? Z.of_nat (String.length str)
  then Some (String.substring 0 (Z.to_nat pos) str)
  else None.

(** ** std::istream over a character buffer *)

Module Stream.

Record istream := mk {
  rdbuf : list ascii;   (* characters not yet read *)
  eofbit : bool;
  failbit : bool
}.

(** [in.good()] *)
Definition good (i : istream) : bool := negb (eofbit i) && negb (failbit i).

(** [static_cast<bool>(in)], that is [!in.fail()] *)
Definition ok (i : istream) : bool := negb (failbit i).

Definition setfail (i : istream) : istream :=
  {| rdbuf := rdbuf i; eofbit := eofbit i; failbit := true |}.

Definition at_eof : istream :=
  {| rdbuf := []; eofbit := true; failbit := true |}.

Definition fresh (cs : list ascii) : istream :=
  {| rdbuf := cs; eofbit := false; failbit := false |}.

(** [std::ifstream in(path)]: a file that cannot be opened leaves the
    stream with [failbit] set. *)
Definition ifstream (file : option (list ascii)) : istream :=
  match file with
  | Some cs => fresh cs
  | None => {| rdbuf := []; eofbit := false; failbit := true |}
  end.

(** [in.read(&ch, 1)]: unformatted read of one character.  The
    character is [None] when nothing was stored into [ch]. *)
Definition read (i : istream) : option ascii * istream :=
  if good i then
    match rdbuf i with
    | [] => (None, at_eof)
    | c :: cs => (Some c, fresh cs)
    end
  else (None, setfail i).

(** [std::isspace] in the "C" locale: HT, LF, VT, FF, CR and space. *)
Definition isspace (c : ascii) : bool :=
  let n := nat_of_ascii c in
  ((9 <=? n) && (n <=? 13) || (n =? 32))%nat.

Fixpoint skipws (cs : list ascii) : list ascii :=
  match cs with
  | c :: cs' => if isspace c then skipws cs' else cs
  | [] => []
  end.

(** The sentry of a formatted input function ([skipws] is set): fails
    on a stream that is not good, otherwise skips white space and
    fails with [eofbit | failbit] when the input is exhausted. *)
Definition sentry (i : istream) : bool * istream :=
  if good i then
    match skipws (rdbuf i) with
    | [] => (false, at_eof)
    | cs => (true, fresh cs)
    end
  else (false, setfail i).

(** Longest prefix satisfying [p], and the rest. *)
Fixpoint span (p : ascii -> bool) (cs : list ascii) : list ascii * list ascii :=
  match cs with
  | c :: cs' =>
      if p c then let '(a, b) := span p cs' in (c :: a, b) else ([], cs)
  | [] => ([], [])
  end.

Definition is_nil {A} (l : list A) : bool :=
  match l with [] => true | _ => false end.

(** [in >> str] for a [std::string]: after the sentry, the string is
    cleared and receives the characters up to the next white space;
    [eofbit] is set when the end of input stops the extraction.  When
    the sentry fails the string keeps its value [str]. *)
Definition extract_string (str : string) (i : istream) : string * istream :=
  let '(b, i1) := sentry i in
  if b then
    let '(tok, rest) := span (fun c => negb (isspace c)) (rdbuf i1) in
    (string_of_list_ascii tok,
     {| rdbuf := rest; eofbit := is_nil rest; failbit := false |})
  else (str, i1).

Definition isdigit (c : ascii) : bool :=
  let n := nat_of_ascii c in ((48 <=? n) && (n <=? 57))%nat.

Definition digit_val (c : ascii) : Z := Z.of_nat (nat_of_ascii c) - 48.

(** Value of a decimal digit string, most significant digit first. *)
Definition decimal (ds : list ascii) : Z :=
  fold_left (fun acc c => 10 * acc + digit_val c) ds 0.

(** [num_get<char>::get] for an [unsigned long] in base 10 in the "C"
    locale: an optional sign, then decimal digits.  No digit: the
    value is 0 and [failbit] is set.  A value above [SIZE_MAX]: the
    value is [SIZE_MAX] and [failbit] is set.  A leading minus negates
    the value in the unsigned type.  [eofbit] is set when the end of
    input stops the scan. *)
Definition num_get (cs : list ascii) : Z * istream :=
  let '(neg, cs1) :=
    match cs with
    | c :: r =>
        if Ascii.eqb c "-" then (true, r)
        else if Ascii.eqb c "+" then (false, r)
        else (false, cs)
    | [] => (false, cs)
    end in
  let '(ds, rest) := span isdigit cs1 in
  let st (f : bool) := {| rdbuf := rest; eofbit := is_nil rest; failbit := f |} in
  if is_nil ds then (0, st true)
  else if SIZE_MAX <? decimal ds then (SIZE_MAX, st true)
  else ((if neg then wrap_size_t (- decimal ds) else decimal ds), st false).

(** [in >> n] for a [size_t].  When the sentry fails nothing is stored
    and the variable keeps its previous value [v] ([None] for a
    variable that was never initialised). *)
Definition extract_size_t (v : option Z) (i : istream) : option Z * istream :=
  let '(b, i1) := sentry i in
  if b then let '(n, i2) := num_get (rdbuf i1) in (Some n, i2)
  else (v, i1).

End Stream.

Import Stream.

(** ** The report table *)

Record KernelInfo := mkKernelInfo {
  funcName : string;
  memoryEffect : string;
  ptrArgInfos : list (Z * string)
}.

(** [std::map<std::string, KernelInfo>] *)
Abbreviation table := (gmap string KernelInfo).

(** [kernelInfo.ptrArgInfos.push_back(x)] *)
Definition push_back (ki : KernelInfo) (x : Z * string) : KernelInfo :=
  {| funcName := funcName ki;
     memoryEffect := memoryEffect ki;
     ptrArgInfos := ptrArgInfos ki ++ [x] |}.

(** ** Ways in which the program stops early *)

Inductive failure :=
| Aborted (cerr : option string)  (* [abort()], with what was written to [std::cerr] *)
| OutOfRange                      (* uncaught [std::out_of_range] *)
| RuntimeError                    (* [std::runtime_error] thrown by [CUDA_CHECK] *)
| Undefined.                      (* behaviour the language leaves undefined *)

Inductive outcome (A : Type) :=
| Ok (a : A)
| Threw (e : failure).
Arguments Ok {A} a.
Arguments Threw {A} e.

(** ** The constructor of [MemRedAnalysisParser] *)

Definition ANALYSIS_FILE : string := "./.memred.memory.analysis.out".

(** [in >> ignore]: the contents of [ignore] are never inspected. *)
Definition skip_token (i : istream) : istream := snd (extract_string "" i).

(** Lines 40-44: [do in.read(&ch, 1); while (in && ch != '@');]
    The loop ends on the stream left by the first read that fails or
    that delivers ['@']. *)
Fixpoint find_at_buf (cs : list ascii) : istream :=
  match cs with
  | [] => at_eof
  | c :: cs' => if Ascii.eqb c "@" then fresh cs' else find_at_buf cs'
  end.

Definition find_at (i : istream) : istream :=
  if good i then find_at_buf (rdbuf i) else setfail i.

(** Lines 46-55: the mangled name with its last two characters erased,
    two ignored tokens and the memory effect. *)
Definition read_header (i : istream) : outcome (string * KernelInfo * istream) :=
  let '(tok, i1) := extract_string "" i in
  match erase tok (wrap_size_t (Z.of_nat (String.length tok) - 2)) with
  | None => Threw OutOfRange
  | Some name =>
      let i2 := skip_token i1 in
      let i3 := skip_token i2 in
      let '(effect, i4) := extract_string "" i3 in
      Ok (name,
          {| funcName := name; memoryEffect := effect; ptrArgInfos := [] |},
          i4)
  end.

(** Lines 68-79: one argument line, after the keyword [Arg]. *)
Definition read_arg_line (kernelInfo : KernelInfo) (i : istream)
  : outcome (KernelInfo * istream) :=
  let i1 := snd (read i) in                      (* ' ' *)
  let i2 := snd (read i1) in                     (* '#' *)
  let '(argumentIndex, i3) := extract_size_t None i2 in
  let i4 := skip_token i3 in
  let i5 := skip_token i4 in
  let '(ptrArgEffect, i6) := extract_string "" i5 in
  let i7 := skip_token i6 in
  let i8 := skip_token i7 in
  match argumentIndex with
  | None => Threw Undefined
  | Some n => Ok (push_back kernelInfo (int_of_size_t n, ptrArgEffect), i8)
  end.

(** The two loops of the constructor, one step per iteration.  A
    position is the head of the outer loop (line 35) or the head of the
    inner loop (line 59), with the values of the live variables. *)
Inductive position :=
| BlockHead (tbl : table) (i : istream)
| ArgHead (tbl : table) (name : string) (kernelInfo : KernelInfo) (i : istream).

Definition step (p : position) : position + outcome table :=
  match p with
  | BlockHead tbl i =>
      if ok i then
        let i1 := find_at i in
        if ok i1 then
          match read_header i1 with
          | Threw e => inr (Threw e)
          | Ok (name, kernelInfo, i2) => inl (ArgHead tbl name kernelInfo i2)
          end
        else inr (Ok tbl)                                      (* line 44 *)
      else inr (Ok tbl)                                        (* line 35 *)
  | ArgHead tbl name kernelInfo i =>
      let '(argumentKeyword, i1) := extract_string "" i in
      if String.eqb argumentKeyword "Function" || negb (ok i1)
      then inl (BlockHead (<[name := kernelInfo]> tbl) i1)     (* lines 63, 82 *)
      else if negb (String.eqb argumentKeyword "Arg")
      then inr (Threw (Aborted None))                          (* line 65 *)
      else
        match read_arg_line kernelInfo i1 with
        | Threw e => inr (Threw e)
        | Ok (kernelInfo', i2) => inl (ArgHead tbl name kernelInfo' i2)
        end
  end.

Fixpoint run (fuel : nat) (p : position) : option (outcome table) :=
  match fuel with
  | O => None
  | S fuel' =>
      match step p with
      | inl p' => run fuel' p'
      | inr r => Some r
      end
  end.

Definition unread (p : position) : nat :=
  match p with
  | BlockHead _ i => 2 * length (rdbuf i) + 1
  | ArgHead _ _ _ i => 2 * length (rdbuf i) + 2
  end.

(** Enough fuel for every iteration the loops can make on the input. *)
Definition run_from (p : position) : option (outcome table) :=
  run (S (unread p)) p.

(** The file system, as far as this program looks at it: the contents
    of the file at a path, or [None] when it cannot be opened. *)
Definition filesystem := string -> option (list ascii).

(** The position at which the constructor starts: no entry yet, and
    the stream just opened (line 33). *)
Definition start (fs : filesystem) : position :=
  BlockHead ∅ (ifstream (fs ANALYSIS_FILE)).

(** The value of [funcNameToKernelInfoMap] when the constructor returns. *)
Definition MemRedAnalysisParser (fs : filesystem) : option (outcome table) :=
  run_from (start fs).

(** ** [analyzeGraph] *)

(** What the CUDA runtime reports about a kernel node:
    [func] is the name [cudaFuncGetName] resolves the node's function
    handle to, [kernelParams] is the array of argument-storage
    addresses. *)
Record cudaKernelNodeParams := mkParams {
  func : string;
  kernelParams : list Z
}.

(** [cudaGraphKernelNodeGetParams] fails on a node that is not a kernel
    node.  The other runtime calls of [analyzeGraph] are taken to
    succeed on the graph handed in. *)
Inductive cudaGraphNode :=
| KernelNode (params : cudaKernelNodeParams)
| OtherNode.

(** Host memory: the object stored at an address. *)
Inductive object :=
| Pointer (p : Z)
| Int (v : Z).

Abbreviation memory := (gmap Z object).

(** The lines written to [std::cout]. *)
Inductive line :=
| NodeLine (i : nat)                                   (* line 96 *)
| FuncNameLine (name : string)                         (* line 112 *)
| ArgValueLine (index : Z) (effect : string) (value : Z) (* lines 115-118 *)
| CudaErrorLine.                                       (* line 16 *)

(** [params.kernelParams[index]] *)
Definition subscript (kernelParams : list Z) (index : Z) : option Z :=
  if 0 <=? index then kernelParams !! Z.to_nat index else None.

(** [*static_cast<int **>(slot)]: the pointer stored at address [slot]. *)
Definition deref_pointer (mem : memory) (slot : Z) : option Z :=
  match mem !! slot with
  | Some (Pointer p) => Some p
  | _ => None
  end.

(** Lines 114-119.  A read outside the array or of something that is
    not a pointer is undefined. *)
Fixpoint print_args (mem : memory) (kernelParams : list Z)
    (infos : list (Z * string)) (out : list line) : list line * outcome unit :=
  match infos with
  | [] => (out, Ok tt)
  | (index, effect) :: infos' =>
      match subscript kernelParams index ≫= deref_pointer mem with
      | Some value =>
          print_args mem kernelParams infos'
            (out ++ [ArgValueLine index effect value])
      | None => (out, Threw Undefined)
      end
  end.

Definition could_not_find (s : string) : string :=
  String.append "Could not find kernel " s.

(** Lines 95-120: the loop over the nodes, [i] being the ordinal of the
    first node of [nodes]. *)
Fixpoint annotate_from (tbl : table) (mem : memory) (i : nat)
    (nodes : list cudaGraphNode) (out : list line) : list line * outcome unit :=
  match nodes with
  | [] => (out, Ok tt)
  | u :: nodes' =>
      let out1 := out ++ [NodeLine i] in
      match u with
      | OtherNode => (out1 ++ [CudaErrorLine], Threw RuntimeError)  (* line 100 *)
      | KernelNode params =>
          let s := func params in
          match tbl !! s with
          | None => (out1, Threw (Aborted (Some (could_not_find s)))) (* line 107 *)
          | Some kernelInfo =>
              let out2 := out1 ++ [FuncNameLine (funcName kernelInfo)] in
              match print_args mem (kernelParams params)
                      (ptrArgInfos kernelInfo) out2 with
              | (out3, Ok _) => annotate_from tbl mem (S i) nodes' out3
              | r => r
              end
          end
      end
  end.

Definition annotate (tbl : table) (mem : memory) (graph : list cudaGraphNode)
  : list line * outcome unit :=
  annotate_from tbl mem 0 graph [].

(** [analyzeGraph(graph)]: builds the parser, then annotates. *)
Definition analyzeGraph (fs : filesystem) (mem : memory)
    (graph : list cudaGraphNode) : option (list line * outcome unit) :=
  match MemRedAnalysisParser fs with
  | None => None
  | Some (Threw e) => Some ([], Threw e)
  | Some (Ok tbl) => Some (annotate tbl mem graph)
  end.

(** ** Reports in the format of the analysis tool

    The text the constructor is written for (see the examples in the
    comments at lines 39, 52 and 58), kept general in everything the
    constructor does not look at: the text before ['@'], the two
    characters closing the mangled name, the ignored words and the
    white space between words. *)

Module Report.

Definition chars (s : string) : list ascii := list_ascii_of_string s.

(** A word followed by the white space that separates it from what
    comes next. *)
Record word := Word { text : string; gap : list ascii }.

Record arg := Arg {
  a_pad : ascii * ascii;        (* after [Arg]: a blank and ['#'] *)
  a_before : list ascii;        (* white space before the index, if any *)
  a_digits : list ascii;        (* the index in decimal *)
  a_after : list ascii;         (* white space after the index, if any *)
  a_colon : word;               (* [:] *)
  a_label : word;               (* [Effect:] *)
  a_effect : word;              (* the effect of the pointer argument *)
  a_caplabel : word;            (* [Capture:] *)
  a_capture : word              (* [Yes] or [No] *)
}.

Record block := Block {
  b_lead : list ascii;          (* signature text up to ['@'] *)
  b_name : string;              (* the mangled name *)
  b_close : ascii * ascii;      (* [):] *)
  b_gap : list ascii;
  b_memlabel : word;            (* [Memory] *)
  b_efflabel : word;            (* [Effect:] *)
  b_effect : word;              (* the memory effect of the function *)
  b_args : list arg
}.

Definition render_word (w : word) : list ascii := chars (text w) ++ gap w.

Definition render_arg (a : arg) : list ascii :=
  chars "Arg" ++ [fst (a_pad a); snd (a_pad a)] ++ a_before a
    ++ a_digits a ++ a_after a
    ++ render_word (a_colon a) ++ render_word (a_label a)
    ++ render_word (a_effect a)
    ++ render_word (a_caplabel a) ++ render_word (a_capture a).

Definition render_args (l : list arg) : list ascii :=
  concat (map render_arg l).

(** The token that follows ['@']: the name and the two closing
    characters. *)
Definition mangled_token (b : block) : list ascii :=
  chars (b_name b) ++ [fst (b_close b); snd (b_close b)].

(** A block without its leading keyword [Function]. *)
Definition render_body (b : block) : list ascii :=
  b_lead b ++ ["@"%char] ++ mangled_token b ++ b_gap b
    ++ render_word (b_memlabel b) ++ render_word (b_efflabel b)
    ++ render_word (b_effect b)
    ++ render_args (b_args b).

Definition render_block (b : block) : list ascii :=
  chars "Function" ++ render_body b.

(** A report: free text without ['@'], then the blocks. *)
Definition render (preamble : list ascii) (bs : list block) : list ascii :=
  preamble ++ concat (map render_block bs).

(** Well-formedness, as boolean checks. *)
Definition notspace (c : ascii) : bool := negb (isspace c).
Definition blank (g : list ascii) : bool := forallb isspace g.
Definition is_gap (g : list ascii) : bool := negb (is_nil g) && blank g.
Definition spaceless (s : string) : bool := forallb notspace (chars s).
Definition no_at (l : list ascii) : bool :=
  forallb (fun c => negb (Ascii.eqb c "@")) l.
Definition starts (p : ascii -> bool) (l : list ascii) : bool :=
  match l with c :: _ => p c | [] => false end.

Definition wf_word (w : word) : bool :=
  negb (is_nil (chars (text w))) && spaceless (text w) && is_gap (gap w).

Definition wf_arg (a : arg) : bool :=
  isspace (fst (a_pad a))
  && blank (a_before a)
  && negb (is_nil (a_digits a)) && forallb isdigit (a_digits a)
  && (decimal (a_digits a) <=? SIZE_MAX)
  && blank (a_after a)
  && wf_word (a_colon a)
  && starts (fun c => negb (isdigit c)) (chars (text (a_colon a)))
  && wf_word (a_label a) && wf_word (a_effect a)
  && wf_word (a_caplabel a) && wf_word (a_capture a).

Definition wf_block (b : block) : bool :=
  starts isspace (b_lead b) && no_at (b_lead b)
  && spaceless (b_name b)
  && (Z.of_nat (length (chars (b_name b))) + 2 <=? SIZE_MAX)
  && notspace (fst (b_close b)) && notspace (snd (b_close b))
  && is_gap (b_gap b)
  && wf_word (b_memlabel b) && wf_word (b_efflabel b)
  && wf_word (b_effect b)
  && forallb wf_arg (b_args b).

Definition wf (preamble : list ascii) (bs : list block) : bool :=
  no_at preamble && forallb wf_block bs.

(** What a block says. *)
Definition arg_index (a : arg) : Z := decimal (a_digits a).

(** The pair an argument line gives: its index and its effect. *)
Definition arg_given (a : arg) : Z * string := (arg_index a, text (a_effect a)).

Definition arg_info (a : arg) : Z * string :=
  (int_of_size_t (arg_index a), text (a_effect a)).

Definition block_info (b : block) : KernelInfo :=
  {| funcName := b_name b;
     memoryEffect := text (b_effect b);
     ptrArgInfos := map arg_info (b_args b) |}.

(** The record describing a block when its header has been read. *)
Definition header_info (b : block) : KernelInfo :=
  {| funcName := b_name b; memoryEffect := text (b_effect b); ptrArgInfos := [] |}.

(** The white space left unread after the argument lines [l], [g]
    being what was left unread before them. *)
Definition last_gap (g : list ascii) (l : list arg) : list ascii :=
  fold_left (fun _ a => gap (a_capture a)) l g.

Definition record_block (tbl : table) (b : block) : table :=
  <[b_name b := block_info b]> tbl.

Definition table_of (bs : list block) : table :=
  fold_left record_block bs ∅.

End Report.

(** A file system holding the report [cs] at [ANALYSIS_FILE] and nothing else. *)
Definition report_file (cs : list ascii) : filesystem :=
  fun path => if String.eqb path ANALYSIS_FILE then Some cs else None.

(** A file system without the report. *)
Definition no_file : filesystem := fun _ => None.

(** ** Positions the constructor passes through *)

(** [advance n p]: where the loops are after [n] iterations from [p],
    or the result if they ended before. *)
Fixpoint advance (n : nat) (p : position) : position + outcome table :=
  match n with
  | O => inl p
  | S n' =>
      match step p with
      | inl p' => advance n' p'
      | inr r => inr r
      end
  end.

(** [reaches p q]: started at [p], the loops arrive at [q]. *)
Inductive reaches : position -> position -> Prop :=
| reaches_here p : reaches p p
| reaches_next p p' q : step p = inl p' -> reaches p' q -> reaches p q.

(** Every key of [tbl] is a key of [t]. *)
Definition keeps (tbl t : table) : Prop :=
  forall k, is_Some (tbl !! k) -> is_Some (t !! k).


(** ** The behaviour the specification describes, where it is compared
    with the code *)

(** An argument line read as the specification words it: after the
    effect, two tokens are discarded and then one more. *)
Definition read_arg_line_as_specified (kernelInfo : KernelInfo) (i : istream)
  : outcome (KernelInfo * istream) :=
  let i1 := snd (read i) in
  let i2 := snd (read i1) in
  let '(argumentIndex, i3) := extract_size_t None i2 in
  let i4 := skip_token i3 in
  let i5 := skip_token i4 in
  let '(ptrArgEffect, i6) := extract_string "" i5 in
  let i7 := skip_token i6 in
  let i8 := skip_token i7 in
  let i9 := skip_token i8 in
  match argumentIndex with
  | None => Threw Undefined
  | Some n => Ok (push_back kernelInfo (int_of_size_t n, ptrArgEffect), i9)
  end.

(** The value of an argument as the specification words it: the slot
    is dereferenced twice, down to the integer. *)
Definition value_as_specified (mem : memory) (slot : Z) : option Z :=
  match deref_pointer mem slot with
  | Some p => match mem !! p with Some (Int v) => Some v | _ => None end
  | None => None
  end.

(** ** Sample inputs *)

Module Sample.
Import Report.

Definition LF : ascii := ascii_of_nat 10.
Definition HT : ascii := ascii_of_nat 9.
Definition SP : ascii := " "%char.

(** [Arg #n:<HT>Effect: eff  Capture: No<LF>] *)
Definition arg_line (n eff : string) : arg :=
  {| a_pad := (SP, "#"%char);
     a_before := [];
     a_digits := chars n;
     a_after := [];
     a_colon := Word ":" [HT];
     a_label := Word "Effect:" [SP];
     a_effect := Word eff [SP; SP];
     a_caplabel := Word "Capture:" [SP];
     a_capture := Word "No" [LF] |}.

(** The header [Function void foo(int) (@name):<LF>Memory Effect: eff<LF>]
    followed by the argument lines. *)
Definition foo_block (name eff : string) (l : list arg) : block :=
  {| b_lead := chars " void foo(int) (";
     b_name := name;
     b_close := (")"%char, ":"%char);
     b_gap := [LF];
     b_memlabel := Word "Memory" [SP];
     b_efflabel := Word "Effect:" [SP];
     b_effect := Word eff [LF];
     b_args := l |}.

Definition two_args : list arg :=
  [arg_line "0" "ReadOnly"; arg_line "2" "ReadWrite"].

Definition same_index_twice : list arg :=
  [arg_line "0" "ReadOnly"; arg_line "0" "ReadWrite"].

(** A block whose argument position holds the word [Bogus]. *)
Definition bogus_report : list ascii :=
  render [] [foo_block "_Z3fooPi" "ArgMemOnly" two_args] ++ chars "Bogus" ++ [LF].

(** A header whose token after ['@'] is the single character [:]. *)
Definition short_token_report : list ascii :=
  chars "Function void f() (@: Memory Effect: None".

(** The text that follows the keyword [Arg] of the first of two
    argument lines. *)
Definition after_arg_keyword : list ascii :=
  chars " #0: Effect: ReadOnly Capture: No Arg #2: Effect: ReadWrite Capture: No".

(** Memory in which address 100 holds a pointer to address 200, where
    the integer 42 is stored. *)
Definition mem42 : memory := {[ 100 := Pointer 200; 200 := Int 42 ]}.

Definition foo_table : table :=
  {[ "foo" := {| funcName := "foo"; memoryEffect := "ArgMemOnly";
                 ptrArgInfos := [(3, "ReadOnly")] |} ]}.

(** A kernel node for [foo] whose argument slot 3 is address 100. *)
Definition foo_node : cudaGraphNode :=
  KernelNode {| func := "foo"; kernelParams := [10; 20; 30; 100; 40] |}.

End Sample.

(** ** Descriptions used to state further properties of the code *)

(** The line that lines 115-118 print for one pair of [ptrArgInfos],
    when the argument slot can be read. *)
Definition arg_value_line (mem : memory) (kernelParams : list Z)
    (x : Z * string) : option line :=
  match subscript kernelParams (fst x) ≫= deref_pointer mem with
  | Some value => Some (ArgValueLine (fst x) (snd x) value)
  | None => None
  end.

(** The lines of a whole argument list, when every slot can be read. *)
Fixpoint arg_value_lines (mem : memory) (kernelParams : list Z)
    (infos : list (Z * string)) : option (list line) :=
  match infos with
  | [] => Some []
  | x :: infos' =>
      match arg_value_line mem kernelParams x,
            arg_value_lines mem kernelParams infos' with
      | Some l, Some ls => Some (l :: ls)
      | _, _ => None
      end
  end.

(** The report of node [u] with ordinal [i], when it is a kernel node
    known to the table whose listed arguments can all be read. *)
Definition node_lines (tbl : table) (mem : memory) (i : nat)
    (u : cudaGraphNode) : option (list line) :=
  match u with
  | KernelNode params =>
      match tbl !! func params with
      | Some kernelInfo =>
          match arg_value_lines mem (kernelParams params)
                  (ptrArgInfos kernelInfo) with
          | Some ls =>
              Some (NodeLine i :: FuncNameLine (funcName kernelInfo) :: ls)
          | None => None
          end
      | None => None
      end
  | OtherNode => None
  end.

(** The reports of the nodes of a graph, one after the other. *)
Fixpoint graph_lines (tbl : table) (mem : memory) (i : nat)
    (graph : list cudaGraphNode) : option (list line) :=
  match graph with
  | [] => Some []
  | u :: graph' =>
      match node_lines tbl mem i u, graph_lines tbl mem (S i) graph' with
      | Some l, Some ls => Some (l ++ ls)
      | _, _ => None
      end
  end.

(** The names printed in [Func Name] lines. *)
Fixpoint printed_names (out : list line) : list string :=
  match out with
  | FuncNameLine name :: out' => name :: printed_names out'
  | _ :: out' => printed_names out'
  | [] => []
  end.

(** The function names of the kernel nodes of a graph. *)
Fixpoint kernel_names (graph : list cudaGraphNode) : list string :=
  match graph with
  | KernelNode params :: graph' => func params :: kernel_names graph'
  | OtherNode :: graph' => kernel_names graph'
  | [] => []
  end.

(** A record without its [memoryEffect]. *)
Definition forget_memory_effect (kernelInfo : KernelInfo) : KernelInfo :=
  {| funcName := funcName kernelInfo;
     memoryEffect := "";
     ptrArgInfos := ptrArgInfos kernelInfo |}.

(** Every entry of the table is filed under the [funcName] it holds. *)
Definition filed_by_name (tbl : table) : Prop :=
  forall k kernelInfo, tbl !! k = Some kernelInfo -> funcName kernelInfo = k.

(** The table built so far at a position. *)
Definition table_at (p : position) : table :=
  match p with
  | BlockHead tbl _ => tbl
  | ArgHead tbl _ _ _ => tbl
  end.

(** What holds at every position the constructor passes through: the
    table is filed by name, and the record being filled carries the
    name under which it will be filed. *)
Definition consistent (p : position) : Prop :=
  match p with
  | BlockHead tbl _ => filed_by_name tbl
  | ArgHead tbl name kernelInfo _ =>
      filed_by_name tbl /\ funcName kernelInfo = name
  end.

(** The last block of a report that carries the name [k]. *)
Fixpoint last_named (k : string) (bs : list Report.block) : option Report.block :=
  match bs with
  | [] => None
  | b :: bs' =>
      match last_named k bs' with
      | Some b' => Some b'
      | None => if String.eqb (Report.b_name b) k then Some b else None
      end
  end.

(** The index written on an argument line fits an [int]. *)
Definition fits_int (a : Report.arg) : bool := Report.arg_index a <? 2 ^ 31.

(** The stream after a token that ran up to the end of the input:
    nothing is left and [eofbit] is set, [failbit] is not. *)
Definition at_end : istream :=
  {| rdbuf := []; eofbit := true; failbit := false |}.

(** A character with which no number can start: neither white space,
    nor a digit, nor a sign. *)
Definition starts_no_number (c : ascii) : bool :=
  negb (isspace c) && negb (isdigit c)
  && negb (Ascii.eqb c "-") && negb (Ascii.eqb c "+").

(** Reports without white space after their last word. *)

Definition trim_word (w : Report.word) : Report.word :=
  {| Report.text := Report.text w; Report.gap := [] |}.

Definition trim_arg (a : Report.arg) : Report.arg :=
  {| Report.a_pad := Report.a_pad a;
     Report.a_before := Report.a_before a;
     Report.a_digits := Report.a_digits a;
     Report.a_after := Report.a_after a;
     Report.a_colon := Report.a_colon a;
     Report.a_label := Report.a_label a;
     Report.a_effect := Report.a_effect a;
     Report.a_caplabel := Report.a_caplabel a;
     Report.a_capture := trim_word (Report.a_capture a) |}.

Fixpoint trim_args (l : list Report.arg) : list Report.arg :=
  match l with
  | [] => []
  | [a] => [trim_arg a]
  | a :: l' => a :: trim_args l'
  end.

(** The block [b] with the white space after its last word removed:
    after the capture value of the last argument line, or after the
    memory effect when there is no argument line. *)
Definition trim_block (b : Report.block) : Report.block :=
  {| Report.b_lead := Report.b_lead b;
     Report.b_name := Report.b_name b;
     Report.b_close := Report.b_close b;
     Report.b_gap := Report.b_gap b;
     Report.b_memlabel := Report.b_memlabel b;
     Report.b_efflabel := Report.b_efflabel b;
     Report.b_effect :=
       if is_nil (Report.b_args b) then trim_word (Report.b_effect b)
       else Report.b_effect b;
     Report.b_args := trim_args (Report.b_args b) |}.

(** The block [b] without its argument lines. *)
Definition header_only (b : Report.block) : Report.block :=
  {| Report.b_lead := Report.b_lead b;
     Report.b_name := Report.b_name b;
     Report.b_close := Report.b_close b;
     Report.b_gap := Report.b_gap b;
     Report.b_memlabel := Report.b_memlabel b;
     Report.b_efflabel := Report.b_efflabel b;
     Report.b_effect := Report.b_effect b;
     Report.b_args := [] |}.

(** ** Further sample inputs *)

Module Cases.
Import Report.

Definition header : list ascii :=
  chars "Function void f() (@f): Memory Effect: None" ++ [Sample.LF].

(** An index that exceeds [SIZE_MAX]. *)
Definition overflow_report : list ascii :=
  header ++ chars "Arg #99999999999999999999: Effect: ReadOnly Capture: No"
         ++ [Sample.LF].

(** An argument line without an index. *)
Definition missing_index_report : list ascii :=
  header ++ chars "Arg #x: Effect: ReadOnly Capture: No" ++ [Sample.LF].

(** A report that ends in the middle of an argument line. *)
Definition cut_after_arg_report : list ascii :=
  header ++ chars "Arg #".

(** A report that ends with the mangled name. *)
Definition cut_after_name_report : list ascii :=
  chars "Function void f() (@f):".

(** A block for [foo] whose argument 3 is read-only. *)
Definition foo_report : list ascii :=
  render [] [Sample.foo_block "foo" "ArgMemOnly" [Sample.arg_line "3" "ReadOnly"]].

(** An index of [2^32], which does not fit an [int]. *)
Definition wide_index_block : block :=
  Sample.foo_block "f" "None" [Sample.arg_line "4294967296" "ReadOnly"].

End Cases.

(** * Facts about the stream operations *)

Section StreamFacts.
Import Report.

Lemma skipws_length cs : (length (skipws cs) <= length cs)%nat.
Proof. induction cs as [|c cs IH]; simpl; [lia|]. destruct (isspace c); simpl; lia. Qed.

Lemma span_length p cs a b :
  span p cs = (a, b) -> length cs = (length a + length b)%nat.
Proof.
  revert a b. induction cs as [|c cs IH]; simpl; intros a b H.
  - by inversion H.
  - destruct (p c).
    + destruct (span p cs) as [a' b'] eqn:E. inversion H; subst.
      simpl. by rewrite (IH a' b).
    + by inversion H.
Qed.

Lemma skipws_notspace cs c cs' : skipws cs = c :: cs' -> isspace c = false.
Proof.
  induction cs as [|d cs IH]; simpl; [done|].
  destruct (isspace d) eqn:E; [done|]. intros H. by inversion H; subst.
Qed.

Lemma skipws_blank g cs : blank g = true -> skipws (g ++ cs) = skipws cs.
Proof.
  induction g as [|c g IH]; simpl; [done|].
  intros [-> ?]%andb_true_iff. auto.
Qed.

Lemma skipws_stop cs : starts notspace cs = true -> skipws cs = cs.
Proof. destruct cs as [|c cs]; simpl; [done|]. unfold notspace. by destruct (isspace c). Qed.

Lemma span_all p t cs :
  forallb p t = true -> starts (fun c => negb (p c)) cs = true ->
  span p (t ++ cs) = (t, cs).
Proof.
  intros Ht Hcs. induction t as [|c t IH]; simpl in *.
  - destruct cs as [|d cs]; simpl in *; [done|]. by destruct (p d).
  - apply andb_true_iff in Ht as [-> Ht]. by rewrite IH.
Qed.

Lemma starts_app p g cs : starts p g = true -> starts p (g ++ cs) = true.
Proof. by destruct g. Qed.

Lemma is_gap_starts g : is_gap g = true -> starts isspace g = true.
Proof. destruct g as [|c g]; simpl; [done|]. unfold is_gap; simpl. by intros [? ?]%andb_true_iff. Qed.

Lemma is_gap_blank g : is_gap g = true -> blank g = true.
Proof. unfold is_gap. by intros [? ?]%andb_true_iff. Qed.

(** Reading a token that is followed by white space. *)
Lemma extract_string_token str g tk cs :
  blank g = true -> is_nil tk = false -> forallb notspace tk = true ->
  starts isspace cs = true ->
  extract_string str (fresh (g ++ tk ++ cs)) = (string_of_list_ascii tk, fresh cs).
Proof.
  intros Hg Hne Ht Hcs. unfold extract_string, sentry. simpl.
  rewrite skipws_blank by done.
  rewrite skipws_stop.
  2:{ destruct tk as [|c l]; [done|]. simpl in *.
      by apply andb_true_iff in Ht as [? ?]. }
  destruct (tk ++ cs) as [|c l] eqn:E.
  { by destruct tk. }
  rewrite <- E. simpl rdbuf.
  rewrite (span_all notspace).
  - f_equal. by destruct cs.
  - done.
  - destruct cs as [|d cs]; simpl in *; [done|]. unfold notspace. by rewrite Hcs.
Qed.

Lemma extract_string_word str g t cs :
  blank g = true -> is_nil (chars t) = false -> spaceless t = true ->
  starts isspace cs = true ->
  extract_string str (fresh (g ++ chars t ++ cs)) = (t, fresh cs).
Proof.
  intros. rewrite extract_string_token by done.
  unfold chars. by rewrite string_of_list_ascii_of_string.
Qed.

(** Reading a word when only white space is left. *)
Lemma extract_string_blank str g :
  blank g = true -> extract_string str (fresh g) = (str, at_eof).
Proof.
  intros Hg. unfold extract_string, sentry. simpl.
  replace g with (g ++ []) by apply app_nil_r.
  by rewrite skipws_blank.
Qed.

Lemma find_at_buf_app pre cs :
  no_at pre = true -> find_at_buf (pre ++ "@"%char :: cs) = fresh cs.
Proof.
  induction pre as [|c pre IH]; simpl; [done|].
  intros [Hc ?]%andb_true_iff. apply negb_true_iff in Hc. rewrite Hc. auto.
Qed.

Lemma find_at_buf_none pre : no_at pre = true -> find_at_buf pre = at_eof.
Proof.
  induction pre as [|c pre IH]; simpl; [done|].
  intros [Hc ?]%andb_true_iff. apply negb_true_iff in Hc. rewrite Hc. auto.
Qed.

Lemma isdigit_notspace c : isdigit c = true -> isspace c = false.
Proof.
  unfold isdigit, isspace. generalize (nat_of_ascii c). intros n.
  intros [H1 H2]%andb_true_iff. apply Nat.leb_le in H1, H2.
  apply orb_false_iff. split.
  - apply andb_false_iff. right. apply Nat.leb_gt. lia.
  - apply Nat.eqb_neq. lia.
Qed.

Lemma isdigit_nosign c :
  isdigit c = true -> Ascii.eqb c "-" = false /\ Ascii.eqb c "+" = false.
Proof.
  intros H. split; apply Ascii.eqb_neq; intros ->; by vm_compute in H.
Qed.

(** Reading an index written in decimal and followed by something
    that is not a digit. *)
Lemma extract_size_t_digits v g ds cs :
  blank g = true -> is_nil ds = false -> forallb isdigit ds = true ->
  (decimal ds <=? SIZE_MAX) = true ->
  starts (fun c => negb (isdigit c)) cs = true ->
  extract_size_t v (fresh (g ++ ds ++ cs)) = (Some (decimal ds), fresh cs).
Proof.
  intros Hg Hne Hds Hmax Hcs. unfold extract_size_t, sentry. simpl.
  rewrite skipws_blank by done.
  destruct ds as [|d ds]; [done|]. simpl in Hds.
  apply andb_true_iff in Hds as [Hd Hds].
  rewrite skipws_stop.
  2:{ simpl. unfold notspace. by rewrite isdigit_notspace. }
  cbn [app rdbuf fresh]. unfold num_get.
  destruct (isdigit_nosign d Hd) as [-> ->].
  change (d :: ds ++ cs) with ((d :: ds) ++ cs).
  rewrite (span_all isdigit); [|by simpl; rewrite Hd|done].
  cbn [is_nil].
  apply Z.leb_le in Hmax.
  destruct (SIZE_MAX <? decimal (d :: ds)) eqn:E.
  { apply Z.ltb_lt in E. lia. }
  f_equal. destruct cs; done.
Qed.
End StreamFacts.

(** * Termination of the constructor *)

Section Termination.
Local Open Scope nat_scope.

Local Abbreviation len i := (length (rdbuf i)).

Lemma read_length i : len (snd (read i)) <= len i.
Proof.
  unfold read. destruct (good i); [|done].
  destruct (rdbuf i); simpl; lia.
Qed.

Lemma sentry_length i : len (snd (sentry i)) <= len i.
Proof.
  unfold sentry. destruct (good i); [|done].
  pose proof (skipws_length (rdbuf i)).
  destruct (skipws (rdbuf i)); simpl in *; lia.
Qed.

Lemma sentry_true i : fst (sentry i) = true -> exists c cs,
  snd (sentry i) = fresh (c :: cs) /\ isspace c = false.
Proof.
  unfold sentry. destruct (good i); [|done].
  destruct (skipws (rdbuf i)) as [|c cs] eqn:E; [done|].
  intros _. exists c, cs. split; [done|]. by eapply skipws_notspace.
Qed.

Lemma sentry_false i : fst (sentry i) = false -> ok (snd (sentry i)) = false.
Proof.
  unfold sentry. destruct (good i); [|done].
  by destruct (skipws (rdbuf i)).
Qed.

Lemma extract_string_length str i : len (snd (extract_string str i)) <= len i.
Proof.
  unfold extract_string. pose proof (sentry_length i) as L.
  destruct (sentry i) as [b i1]. simpl in L. destruct b; [|done].
  destruct (span _ (rdbuf i1)) as [tok rest] eqn:E.
  apply span_length in E. simpl. lia.
Qed.

Lemma extract_string_progress str i :
  ok (snd (extract_string str i)) = true -> len (snd (extract_string str i)) < len i.
Proof.
  unfold extract_string. pose proof (sentry_length i) as L.
  pose proof (sentry_true i) as T. pose proof (sentry_false i) as F.
  destruct (sentry i) as [b i1]. simpl in *. destruct b.
  - destruct T as (c & cs & -> & Hc); [done|]. simpl in *.
    rewrite Hc. simpl. destruct (span _ cs) as [a r] eqn:E.
    apply span_length in E. simpl. lia.
  - simpl. intros H. rewrite F in H; done.
Qed.

Lemma skip_token_length i : len (skip_token i) <= len i.
Proof. apply extract_string_length. Qed.

Lemma num_get_length cs : len (snd (num_get cs)) <= length cs.
Proof.
  unfold num_get.
  destruct (match cs with [] => _ | _ => _ end) as [neg cs1] eqn:E.
  assert (length cs1 <= length cs) as L.
  { destruct cs as [|c r]; [by inversion E|].
    destruct (Ascii.eqb c "-"); [inversion E; simpl; lia|].
    destruct (Ascii.eqb c "+"); inversion E; simpl; lia. }
  destruct (span isdigit cs1) as [ds rest] eqn:S.
  apply span_length in S.
  destruct (is_nil ds); [simpl; lia|].
  destruct (SIZE_MAX <? decimal ds)%Z; simpl; lia.
Qed.

Lemma extract_size_t_length v i : len (snd (extract_size_t v i)) <= len i.
Proof.
  unfold extract_size_t. pose proof (sentry_length i) as L.
  destruct (sentry i) as [b i1]. simpl in L. destruct b; [|done].
  pose proof (num_get_length (rdbuf i1)).
  destruct (num_get (rdbuf i1)). simpl in *. lia.
Qed.

Lemma find_at_buf_progress cs :
  ok (find_at_buf cs) = true -> len (find_at_buf cs) < length cs.
Proof.
  induction cs as [|c cs IH]; simpl; [done|].
  destruct (Ascii.eqb c "@"); simpl; [lia|]. intros H. specialize (IH H). lia.
Qed.

Lemma find_at_progress i : ok (find_at i) = true -> len (find_at i) < len i.
Proof.
  unfold find_at. destruct (good i); [apply find_at_buf_progress|done].
Qed.

Lemma read_header_length i name ki i' :
  read_header i = Ok (name, ki, i') -> len i' <= len i.
Proof.
  unfold read_header.
  pose proof (extract_string_length "" i) as L1.
  destruct (extract_string "" i) as [tok i1]. simpl in L1.
  destruct (erase tok _); [|done].
  pose proof (skip_token_length i1) as L2.
  pose proof (skip_token_length (skip_token i1)) as L3.
  pose proof (extract_string_length "" (skip_token (skip_token i1))) as L4.
  destruct (extract_string "" (skip_token (skip_token i1))) as [eff i4].
  intros H. inversion H; subst. simpl in *. lia.
Qed.

Lemma read_arg_line_length ki i ki' i' :
  read_arg_line ki i = Ok (ki', i') -> len i' <= len i.
Proof.
  unfold read_arg_line.
  pose proof (read_length i) as L1.
  pose proof (read_length (snd (read i))) as L2.
  set (i2 := snd (read (snd (read i)))) in *.
  pose proof (extract_size_t_length None i2) as L3.
  destruct (extract_size_t None i2) as [n i3]. simpl in L3.
  pose proof (skip_token_length i3) as L4.
  pose proof (skip_token_length (skip_token i3)) as L5.
  set (i5 := skip_token (skip_token i3)) in *.
  pose proof (extract_string_length "" i5) as L6.
  destruct (extract_string "" i5) as [eff i6]. simpl in L6.
  pose proof (skip_token_length i6) as L7.
  pose proof (skip_token_length (skip_token i6)) as L8.
  destruct n; [|done]. intros H. inversion H; subst. lia.
Qed.

Lemma step_decreases p p' : step p = inl p' -> unread p' < unread p.
Proof.
  destruct p as [tbl i|tbl name ki i]; simpl.
  - destruct (ok i); [|done].
    pose proof (find_at_progress i) as L1.
    destruct (ok (find_at i)); [|done]. specialize (L1 eq_refl).
    destruct (read_header (find_at i)) as [[[n k] i2]|] eqn:E; [|done].
    apply read_header_length in E. intros H. inversion H; subst. simpl. lia.
  - pose proof (extract_string_length "" i) as L1.
    pose proof (extract_string_progress "" i) as L2.
    destruct (extract_string "" i) as [kw i1]. simpl in *.
    destruct (String.eqb kw "Function" || negb (ok i1)) eqn:B.
    { intros H. inversion H; subst. simpl. lia. }
    apply orb_false_iff in B as [_ B]. apply negb_false_iff in B.
    specialize (L2 B).
    destruct (negb (String.eqb kw "Arg")); [done|].
    destruct (read_arg_line ki i1) as [[k i2]|] eqn:E; [|done].
    apply read_arg_line_length in E. intros H. inversion H; subst. simpl. lia.
Qed.

Lemma run_enough n p : unread p < n -> exists r, run n p = Some r.
Proof.
  revert p. induction n as [|n IH]; intros p L; [lia|]. simpl.
  destruct (step p) as [p'|r] eqn:E; [|eauto].
  apply IH. apply step_decreases in E. lia.
Qed.

Lemma run_more n m p r : run n p = Some r -> n <= m -> run m p = Some r.
Proof.
  revert m p. induction n as [|n IH]; intros m p; simpl; [done|].
  intros H L. destruct m as [|m]; [lia|]. simpl.
  destruct (step p); [|done]. apply IH; [done|lia].
Qed.

Lemma run_from_total p : exists r, run_from p = Some r.
Proof. apply run_enough. lia. Qed.

Lemma run_from_step p p' : step p = inl p' -> run_from p = run_from p'.
Proof.
  intros E. destruct (run_from_total p') as [r Hr]. rewrite Hr.
  unfold run_from in *. simpl. rewrite E.
  apply (run_more _ _ _ _ Hr). apply step_decreases in E. lia.
Qed.

Lemma run_from_done p r : step p = inr r -> run_from p = Some r.
Proof. intros E. unfold run_from. simpl. by rewrite E. Qed.
End Termination.

(** * Positions the constructor passes through *)

Lemma run_from_reaches p q : reaches p q -> run_from p = run_from q.
Proof.
  induction 1 as [|p p' q E _ IH]; [done|].
  by rewrite (run_from_step _ _ E).
Qed.

(** * The constructor on well-formed reports *)

Section ReportFacts.
Import Report.

Lemma string_length_of_list l :
  String.length (string_of_list_ascii l) = length l.
Proof. induction l as [|c l IH]; simpl; [done|]. by rewrite IH. Qed.

Lemma substring_prefix l1 l2 :
  String.substring 0 (length l1) (string_of_list_ascii (l1 ++ l2))
  = string_of_list_ascii l1.
Proof.
  induction l1 as [|c l1 IH]; simpl.
  - by destruct (string_of_list_ascii l2).
  - by rewrite IH.
Qed.

(** Erasing the last two characters of a token of realistic length. *)
Lemma erase_last_two l c1 c2 :
  Z.of_nat (length l) + 2 <= SIZE_MAX ->
  let tok := string_of_list_ascii (l ++ [c1; c2]) in
  erase tok (wrap_size_t (Z.of_nat (String.length tok) - 2))
  = Some (string_of_list_ascii l).
Proof.
  intros Hlen tok. unfold tok, erase, wrap_size_t.
  rewrite string_length_of_list, length_app. simpl length.
  replace (Z.of_nat (length l + 2) - 2) with (Z.of_nat (length l)) by lia.
  unfold SIZE_MAX in Hlen. rewrite Z.mod_small by lia.
  destruct (Z.leb_spec (Z.of_nat (length l)) (Z.of_nat (length l + 2))); [|lia].
  by rewrite Nat2Z.id, substring_prefix.
Qed.

Lemma wf_word_inv w :
  wf_word w = true ->
  is_nil (chars (text w)) = false /\ spaceless (text w) = true
  /\ blank (gap w) = true /\ starts isspace (gap w) = true.
Proof.
  unfold wf_word. intros [[H1 H2]%andb_true_iff H3]%andb_true_iff.
  apply negb_true_iff in H1.
  auto using is_gap_blank, is_gap_starts.
Qed.

Lemma wf_word_blank w : wf_word w = true -> blank (gap w) = true.
Proof. by intros (_ & _ & ? & _)%wf_word_inv. Qed.

(** Skipping, respectively reading, a well-formed word. *)
Lemma skip_token_word g w cs :
  blank g = true -> wf_word w = true ->
  skip_token (fresh (g ++ render_word w ++ cs)) = fresh (gap w ++ cs).
Proof.
  intros Hg (H1 & H2 & H3 & H4)%wf_word_inv.
  unfold skip_token, render_word. rewrite <- app_assoc.
  rewrite extract_string_word; auto using starts_app.
Qed.

Lemma extract_string_render str g w cs :
  blank g = true -> wf_word w = true ->
  extract_string str (fresh (g ++ render_word w ++ cs))
  = (text w, fresh (gap w ++ cs)).
Proof.
  intros Hg (H1 & H2 & H3 & H4)%wf_word_inv.
  unfold render_word. rewrite <- app_assoc.
  rewrite extract_string_word; auto using starts_app.
Qed.

Lemma forallb_app_true {A} (p : A -> bool) l1 l2 :
  forallb p l1 = true -> forallb p l2 = true -> forallb p (l1 ++ l2) = true.
Proof. intros. rewrite forallb_app. by apply andb_true_iff. Qed.

Lemma extract_string_first str tk cs :
  is_nil tk = false -> forallb notspace tk = true ->
  starts isspace cs = true ->
  extract_string str (fresh (tk ++ cs)) = (string_of_list_ascii tk, fresh cs).
Proof. intros. by apply (extract_string_token str []). Qed.

(** The header of a well-formed block, read from just after ['@']. *)
Lemma read_header_block b cs :
  wf_block b = true ->
  read_header (fresh (chars (b_name b) ++ [fst (b_close b); snd (b_close b)]
                      ++ b_gap b ++ render_word (b_memlabel b)
                      ++ render_word (b_efflabel b)
                      ++ render_word (b_effect b) ++ cs))
  = Ok (b_name b, header_info b, fresh (gap (b_effect b) ++ cs)).
Proof.
  unfold wf_block. rewrite !andb_true_iff.
  intros [[[[[[[[[[_ _] Hn] Hlen] Hc1] Hc2] Hg] Hw1] Hw2] Hw3] _].
  unfold read_header.
  set (cs' := b_gap b ++ _).
  rewrite (app_assoc (chars (b_name b)) _ cs').
  rewrite extract_string_first.
  - rewrite erase_last_two by (by apply Z.leb_le).
    unfold chars at 1 2. rewrite !string_of_list_ascii_of_string.
    unfold cs'.
    rewrite skip_token_word by auto using is_gap_blank.
    rewrite skip_token_word by auto using wf_word_blank.
    by rewrite extract_string_render by auto using wf_word_blank.
  - by destruct (chars (b_name b)).
  - apply forallb_app_true; [done|]. simpl. by rewrite Hc1, Hc2.
  - unfold cs'. auto using starts_app, is_gap_starts.
Qed.

Lemma wf_arg_inv a :
  wf_arg a = true ->
  isspace (fst (a_pad a)) = true /\ blank (a_before a) = true
  /\ is_nil (a_digits a) = false /\ forallb isdigit (a_digits a) = true
  /\ (decimal (a_digits a) <=? SIZE_MAX) = true
  /\ blank (a_after a) = true
  /\ starts (fun c => negb (isdigit c)) (chars (text (a_colon a))) = true
  /\ wf_word (a_colon a) = true /\ wf_word (a_label a) = true
  /\ wf_word (a_effect a) = true /\ wf_word (a_caplabel a) = true
  /\ wf_word (a_capture a) = true.
Proof.
  unfold wf_arg. rewrite !andb_true_iff, negb_true_iff. tauto.
Qed.

Lemma starts_nondigit g cs :
  blank g = true -> starts (fun c => negb (isdigit c)) cs = true ->
  starts (fun c => negb (isdigit c)) (g ++ cs) = true.
Proof.
  destruct g as [|c g]; simpl; [done|].
  intros [Hc _]%andb_true_iff _. apply negb_true_iff.
  destruct (isdigit c) eqn:E; [|done].
  apply isdigit_notspace in E. congruence.
Qed.

(** An argument line of a well-formed report, read from just after
    the keyword [Arg]. *)
Lemma read_arg_line_arg ki a cs :
  wf_arg a = true ->
  read_arg_line ki
    (fresh ([fst (a_pad a); snd (a_pad a)] ++ a_before a ++ a_digits a
            ++ a_after a ++ render_word (a_colon a) ++ render_word (a_label a)
            ++ render_word (a_effect a) ++ render_word (a_caplabel a)
            ++ render_word (a_capture a) ++ cs))
  = Ok (push_back ki (arg_info a), fresh (gap (a_capture a) ++ cs)).
Proof.
  intros (Hp & Hb & Hne & Hds & Hmax & Ha & Hc0 & Hc & Hl & He & Hcl & Hcap)%wf_arg_inv.
  unfold read_arg_line. cbn [app read good fresh rdbuf eofbit failbit negb andb snd].
  rewrite extract_size_t_digits; try done.
  2:{ apply starts_nondigit; [done|]. unfold render_word.
      rewrite <- app_assoc. by apply starts_app. }
  rewrite skip_token_word by done.
  rewrite skip_token_word by auto using wf_word_blank.
  rewrite extract_string_render by auto using wf_word_blank.
  rewrite skip_token_word by auto using wf_word_blank.
  by rewrite skip_token_word by auto using wf_word_blank.
Qed.

Lemma render_arg_assoc a cs :
  render_arg a ++ cs =
  chars "Arg" ++ ([fst (a_pad a); snd (a_pad a)] ++ a_before a ++ a_digits a
    ++ a_after a ++ render_word (a_colon a) ++ render_word (a_label a)
    ++ render_word (a_effect a) ++ render_word (a_caplabel a)
    ++ render_word (a_capture a) ++ cs).
Proof. unfold render_arg. by rewrite <- !app_assoc. Qed.

(** One iteration of the inner loop on an argument line. *)
Lemma step_arg tbl name ki g a cs :
  blank g = true -> wf_arg a = true ->
  step (ArgHead tbl name ki (fresh (g ++ render_arg a ++ cs)))
  = inl (ArgHead tbl name (push_back ki (arg_info a))
           (fresh (gap (a_capture a) ++ cs))).
Proof.
  intros Hg Ha. pose proof Ha as (Hp & _)%wf_arg_inv.
  unfold step. rewrite render_arg_assoc.
  rewrite extract_string_word; [|done..].
  by rewrite read_arg_line_arg.
Qed.

Lemma last_gap_blank g l :
  blank g = true -> forallb wf_arg l = true -> blank (last_gap g l) = true.
Proof.
  revert g. induction l as [|a l IH]; intros g Hg; simpl; [done|].
  intros [Ha Hl]%andb_true_iff. apply IH; [|done].
  apply wf_arg_inv in Ha. apply wf_word_blank, Ha.
Qed.

(** The inner loop over the argument lines of a block. *)
Lemma reaches_args tbl name l : forall ki g cs,
  blank g = true -> forallb wf_arg l = true ->
  reaches (ArgHead tbl name ki (fresh (g ++ render_args l ++ cs)))
          (ArgHead tbl name (fold_left push_back (map arg_info l) ki)
             (fresh (last_gap g l ++ cs))).
Proof.
  induction l as [|a l IH]; intros ki g cs Hg Hl.
  - apply reaches_here.
  - simpl in Hl. apply andb_true_iff in Hl as [Ha Hl].
    eapply reaches_next.
    + unfold render_args. simpl. rewrite <- app_assoc. by apply step_arg.
    + apply IH; [|done]. apply wf_arg_inv in Ha. apply wf_word_blank, Ha.
Qed.

Lemma fold_push_back l ki :
  fold_left push_back l ki =
  {| funcName := funcName ki; memoryEffect := memoryEffect ki;
     ptrArgInfos := ptrArgInfos ki ++ l |}.
Proof.
  revert ki. induction l as [|x l IH]; intros ki; simpl.
  - rewrite app_nil_r. by destruct ki.
  - rewrite IH. simpl. by rewrite <- app_assoc.
Qed.

(** The inner loop ends at the keyword [Function] ... *)
Lemma step_function tbl name ki g cs :
  blank g = true -> starts isspace cs = true ->
  step (ArgHead tbl name ki (fresh (g ++ chars "Function" ++ cs)))
  = inl (BlockHead (<[name := ki]> tbl) (fresh cs)).
Proof. intros Hg Hcs. unfold step. by rewrite extract_string_word. Qed.

(** ... or at the end of the input. *)
Lemma step_end tbl name ki g :
  blank g = true ->
  step (ArgHead tbl name ki (fresh g))
  = inl (BlockHead (<[name := ki]> tbl) at_eof).
Proof. intros Hg. unfold step. by rewrite extract_string_blank. Qed.

Lemma wf_block_inv b :
  wf_block b = true ->
  starts isspace (b_lead b) = true /\ no_at (b_lead b) = true
  /\ forallb wf_arg (b_args b) = true /\ wf_word (b_effect b) = true.
Proof. unfold wf_block. rewrite !andb_true_iff. tauto. Qed.

Lemma render_body_assoc pre b cs :
  pre ++ render_body b ++ cs =
  (pre ++ b_lead b) ++ "@"%char ::
    (chars (b_name b) ++ [fst (b_close b); snd (b_close b)]
     ++ b_gap b ++ render_word (b_memlabel b) ++ render_word (b_efflabel b)
     ++ render_word (b_effect b) ++ render_args (b_args b) ++ cs).
Proof. unfold render_body, mangled_token. by rewrite <- !app_assoc. Qed.

(** One iteration of the outer loop up to the first argument line. *)
Lemma step_header tbl pre b cs :
  no_at pre = true -> wf_block b = true ->
  step (BlockHead tbl (fresh (pre ++ render_body b ++ cs)))
  = inl (ArgHead tbl (b_name b) (header_info b)
           (fresh (gap (b_effect b) ++ render_args (b_args b) ++ cs))).
Proof.
  intros Hpre Hb. pose proof Hb as (_ & Hl & _)%wf_block_inv.
  unfold step, find_at. rewrite render_body_assoc.
  cbn [ok good fresh failbit eofbit rdbuf negb andb].
  rewrite find_at_buf_app by (by apply forallb_app_true).
  cbn [fresh failbit negb].
  by rewrite (read_header_block b).
Qed.

(** A well-formed block, from the head of the outer loop to the end of
    its argument lines. *)
Lemma reaches_block tbl pre b cs :
  no_at pre = true -> wf_block b = true ->
  reaches (BlockHead tbl (fresh (pre ++ render_body b ++ cs)))
          (ArgHead tbl (b_name b) (block_info b)
             (fresh (last_gap (gap (b_effect b)) (b_args b) ++ cs))).
Proof.
  intros Hpre Hb. pose proof Hb as (_ & _ & Ha & He)%wf_block_inv.
  eapply reaches_next; [by apply step_header|].
  replace (block_info b)
    with (fold_left push_back (map arg_info (b_args b)) (header_info b))
    by (by rewrite fold_push_back).
  apply reaches_args; auto using wf_word_blank.
Qed.

Lemma no_at_function pre :
  no_at pre = true -> no_at (pre ++ chars "Function") = true.
Proof. intros. by apply forallb_app_true. Qed.

(** The whole constructor on well-formed blocks, the keyword of the
    first one being already consumed. *)
Lemma run_from_blocks bs : forall tbl pre b,
  no_at pre = true -> wf_block b = true -> forallb wf_block bs = true ->
  run_from (BlockHead tbl (fresh (pre ++ render_body b
                                  ++ concat (map render_block bs))))
  = Some (Ok (fold_left record_block (b :: bs) tbl)).
Proof.
  induction bs as [|b' bs IH]; intros tbl pre b Hpre Hb Hbs.
  - cbn [map concat].
    rewrite (run_from_reaches _ _ (reaches_block tbl pre b [] Hpre Hb)).
    pose proof Hb as (_ & _ & Ha & He)%wf_block_inv.
    rewrite app_nil_r.
    erewrite run_from_step
      by (apply step_end, last_gap_blank; auto using wf_word_blank).
    by apply run_from_done.
  - simpl in Hbs. apply andb_true_iff in Hbs as [Hb' Hbs].
    rewrite (run_from_reaches _ _ (reaches_block tbl pre b _ Hpre Hb)).
    pose proof Hb as (_ & _ & Ha & He)%wf_block_inv.
    pose proof Hb' as (Hs & Hl & _)%wf_block_inv.
    cbn [map concat]. unfold render_block at 1. rewrite <- app_assoc.
    erewrite run_from_step.
    2:{ apply step_function; [apply last_gap_blank; auto using wf_word_blank|].
        unfold render_body. rewrite <- app_assoc. by apply starts_app. }
    rewrite <- (app_nil_l (render_body b' ++ _)).
    by rewrite IH.
Qed.

(** Parsing a well-formed report yields the table of its blocks. *)
Lemma parse_render pre bs :
  wf pre bs = true ->
  MemRedAnalysisParser (report_file (render pre bs)) = Some (Ok (table_of bs)).
Proof.
  unfold wf. intros [Hpre Hbs]%andb_true_iff.
  unfold MemRedAnalysisParser, start, report_file. rewrite String.eqb_refl.
  unfold render, table_of. cbn [ifstream].
  destruct bs as [|b bs].
  - simpl. rewrite app_nil_r. apply run_from_done.
    unfold step, find_at. cbn [ok good fresh failbit eofbit rdbuf negb andb].
    by rewrite find_at_buf_none.
  - simpl in Hbs. apply andb_true_iff in Hbs as [Hb Hbs].
    cbn [map concat]. unfold render_block at 1.
    rewrite <- app_assoc, app_assoc.
    apply run_from_blocks; auto using no_at_function.
Qed.

End ReportFacts.

(** * The claims of the specification *)

Section Claims.
Import Report.

(** The loop of lines 41-43, one [read] at a time. *)
Lemma find_at_loop i :
  find_at i =
  let '(ch, i') := read i in
  if ok i' && negb (bool_decide (ch = Some "@"%char)) then find_at i' else i'.
Proof.
  unfold find_at, read. destruct (good i) eqn:G; [|done].
  destruct (rdbuf i) as [|c cs]; [done|]. simpl.
  destruct (Ascii.eqb_spec c "@") as [->|Hne].
  - by rewrite bool_decide_eq_true_2.
  - rewrite bool_decide_eq_false_2; [done|congruence].
Qed.

(** The constructor returns on every input: the fuel of [run_from] is
    never exhausted. *)
Lemma parser_total fs : exists r, MemRedAnalysisParser fs = Some r.
Proof. apply run_from_total. Qed.

(** C1.  A report with exactly one function block, named [F] with
    memory effect [E], whose argument lines give the pairs
    [(0, "ReadOnly")] and [(2, "ReadWrite")], parses to a table with
    exactly one entry: its key is [F], its [funcName] is [F], its
    [memoryEffect] is [E], and its [ptrArgInfos] is the list
    [(0, "ReadOnly"); (2, "ReadWrite")] in that order. *)
Theorem roundtrip_one_block pre b :
  wf pre [b] = true ->
  map arg_given (b_args b) = [(0, "ReadOnly"); (2, "ReadWrite")] ->
  MemRedAnalysisParser (report_file (render pre [b]))
  = Some (Ok {[ b_name b :=
                 {| funcName := b_name b;
                    memoryEffect := text (b_effect b);
                    ptrArgInfos := [(0, "ReadOnly"); (2, "ReadWrite")] |} ]}).
Proof.
  intros Hwf Hargs. rewrite parse_render by done.
  unfold table_of, record_block, block_info. simpl.
  replace (map arg_info (b_args b))
    with (map (fun x : Z * string => (int_of_size_t (fst x), snd x))
              (map arg_given (b_args b))).
  - by rewrite Hargs.
  - rewrite map_map. by apply map_ext.
Qed.

Lemma roundtrip_one_block_witness :
  MemRedAnalysisParser
    (report_file (render [] [Sample.foo_block "_Z3fooPi" "ArgMemOnly" Sample.two_args]))
  = Some (Ok {[ "_Z3fooPi" :=
                 {| funcName := "_Z3fooPi";
                    memoryEffect := "ArgMemOnly";
                    ptrArgInfos := [(0, "ReadOnly"); (2, "ReadWrite")] |} ]}).
Proof.
  apply (roundtrip_one_block [] (Sample.foo_block "_Z3fooPi" "ArgMemOnly" Sample.two_args));
    reflexivity.
Defined.

(** C4.  A report with two function blocks sharing one name parses,
    without any error, to a table with exactly one entry under that
    name, and the entry holds the memory effect and the argument list of
    the second block. *)
Theorem last_block_wins pre b1 b2 :
  wf pre [b1; b2] = true -> b_name b1 = b_name b2 ->
  MemRedAnalysisParser (report_file (render pre [b1; b2]))
  = Some (Ok {[ b_name b2 :=
                 {| funcName := b_name b2;
                    memoryEffect := text (b_effect b2);
                    ptrArgInfos := map arg_info (b_args b2) |} ]}).
Proof.
  intros Hwf Hname. rewrite parse_render by done.
  unfold table_of, record_block. simpl. rewrite Hname.
  by rewrite insert_insert_eq.
Qed.

Lemma last_block_wins_witness :
  MemRedAnalysisParser
    (report_file (render [] [Sample.foo_block "f" "None" Sample.same_index_twice;
                             Sample.foo_block "f" "ArgMemOnly" Sample.two_args]))
  = Some (Ok {[ "f" :=
                 {| funcName := "f";
                    memoryEffect := "ArgMemOnly";
                    ptrArgInfos := [(0, "ReadOnly"); (2, "ReadWrite")] |} ]}).
Proof.
  apply (last_block_wins [] (Sample.foo_block "f" "None" Sample.same_index_twice)
           (Sample.foo_block "f" "ArgMemOnly" Sample.two_args)); reflexivity.
Defined.





Lemma fold_record_other bs k : forall (m : table),
  forallb (fun b => negb (String.eqb (b_name b) k)) bs = true ->
  fold_left record_block bs m !! k = m !! k.
Proof.
  induction bs as [|b bs IH]; intros m; simpl; [done|].
  intros [Hb Hbs]%andb_true_iff. rewrite IH by done.
  unfold record_block. apply lookup_insert_ne.
  apply negb_true_iff in Hb. by apply String.eqb_neq in Hb.
Qed.

Lemma short_token_empty_name b :
  length (mangled_token b) = 2%nat -> b_name b = "".
Proof.
  unfold mangled_token, chars. rewrite length_app. simpl.
  destruct (b_name b); simpl; [done|lia].
Qed.

(** C10.  When the token following ['@'] in a block of a well-formed
    report is exactly two characters long (and no later block has such
    a token), parsing succeeds and the table has an entry under the
    empty key, whose [funcName] is empty and which carries the memory
    effect and the argument list parsed from that block. *)
Theorem empty_name_is_recorded pre bs1 b bs2 :
  wf pre (bs1 ++ b :: bs2) = true ->
  length (mangled_token b) = 2%nat ->
  forallb (fun b' => negb (String.eqb (b_name b') "")) bs2 = true ->
  exists tbl,
    MemRedAnalysisParser (report_file (render pre (bs1 ++ b :: bs2))) = Some (Ok tbl)
    /\ tbl !! "" = Some {| funcName := "";
                           memoryEffect := text (b_effect b);
                           ptrArgInfos := map arg_info (b_args b) |}.
Proof.
  intros Hwf Hlen Hlater. apply short_token_empty_name in Hlen.
  eexists. split; [by apply parse_render|].
  unfold table_of. rewrite fold_left_app. simpl.
  rewrite fold_record_other by done.
  unfold record_block at 1. rewrite Hlen, lookup_insert_eq.
  unfold block_info. by rewrite Hlen.
Qed.

Lemma empty_name_is_recorded_witness :
  exists tbl,
    MemRedAnalysisParser
      (report_file (render [] [Sample.foo_block "" "ArgMemOnly" Sample.two_args]))
    = Some (Ok tbl)
    /\ tbl !! "" = Some {| funcName := ""; memoryEffect := "ArgMemOnly";
                           ptrArgInfos := [(0, "ReadOnly"); (2, "ReadWrite")] |}.
Proof.
  apply (empty_name_is_recorded [] []
           (Sample.foo_block "" "ArgMemOnly" Sample.two_args) []); reflexivity.
Defined.

(** C3, refuted as stated: with no report file the constructor returns
    the empty table, no failure is raised, and [analyzeGraph] goes on to
    the (here empty) graph and completes. *)
Lemma missing_file_is_not_an_error :
  no_file ANALYSIS_FILE = None
  /\ MemRedAnalysisParser no_file = Some (Ok ∅)
  /\ analyzeGraph no_file ∅ [] = Some ([], Ok tt).
Proof. by vm_compute. Qed.

Lemma parse_missing fs :
  fs ANALYSIS_FILE = None -> MemRedAnalysisParser fs = Some (Ok ∅).
Proof.
  intros H. unfold MemRedAnalysisParser, start. rewrite H. by apply run_from_done.
Qed.

(** C3, amended.  When the report file is missing or unreadable,
    parsing does not fail: it yields the empty table, and annotation
    proceeds against it; an empty graph is annotated with no output,
    and a graph starting with a kernel node stops at that node with the
    message that the kernel could not be found. *)
Theorem missing_file_gives_empty_table fs mem graph :
  fs ANALYSIS_FILE = None ->
  MemRedAnalysisParser fs = Some (Ok ∅)
  /\ analyzeGraph fs mem graph = Some (annotate ∅ mem graph)
  /\ (graph = [] -> analyzeGraph fs mem graph = Some ([], Ok tt))
  /\ (forall params rest, graph = KernelNode params :: rest ->
       analyzeGraph fs mem graph
       = Some ([NodeLine 0], Threw (Aborted (Some (could_not_find (func params)))))).
Proof.
  intros H. pose proof (parse_missing fs H) as E.
  unfold analyzeGraph. rewrite E. repeat split.
  - by intros ->.
  - intros params rest ->. unfold annotate. simpl. by rewrite lookup_empty.
Qed.

Lemma missing_file_gives_empty_table_witness :
  MemRedAnalysisParser no_file = Some (Ok ∅)
  /\ analyzeGraph no_file Sample.mem42 [Sample.foo_node]
     = Some ([NodeLine 0], Threw (Aborted (Some "Could not find kernel foo"))).
Proof.
  destruct (missing_file_gives_empty_table no_file Sample.mem42 [Sample.foo_node] eq_refl)
    as (H1 & _ & _ & H2).
  split; [exact H1|]. exact (H2 _ _ eq_refl).
Defined.

(** C2, refuted as stated: the table maps [foo] to the single pair
    [(3, "ReadOnly")], slot 3 of the node holds address 100, where a
    pointer to the integer 42 at address 200 is stored; the line printed
    for the argument carries the pointer 200, not the integer 42. *)
Lemma annotate_prints_the_pointer :
  Sample.foo_table !! "foo"
    = Some {| funcName := "foo"; memoryEffect := "ArgMemOnly";
              ptrArgInfos := [(3, "ReadOnly")] |}
  /\ subscript [10; 20; 30; 100; 40] 3 = Some 100
  /\ value_as_specified Sample.mem42 100 = Some 42
  /\ annotate Sample.foo_table Sample.mem42 [Sample.foo_node]
     = ([NodeLine 0; FuncNameLine "foo"; ArgValueLine 3 "ReadOnly" 200], Ok tt)
  /\ ArgValueLine 3 "ReadOnly" 200 <> ArgValueLine 3 "ReadOnly" 42.
Proof. repeat split; by vm_compute. Qed.

(** C2, amended.  For a table mapping [foo] to a [KernelInfo] whose
    [ptrArgInfos] is [(3, "ReadOnly")] and a graph of one node whose
    function resolves to [foo], the output is exactly one node report
    with the argument entry (index 3, effect [ReadOnly], value [p]),
    where [p] is the pointer stored in the argument storage that slot 3
    points to: the slot is dereferenced once, and the integer behind [p]
    is not read. *)
Theorem annotate_reports_pointer tbl mem params ki slot p :
  tbl !! "foo" = Some ki ->
  ptrArgInfos ki = [(3, "ReadOnly")] ->
  func params = "foo" ->
  subscript (kernelParams params) 3 = Some slot ->
  mem !! slot = Some (Pointer p) ->
  annotate tbl mem [KernelNode params]
  = ([NodeLine 0; FuncNameLine (funcName ki); ArgValueLine 3 "ReadOnly" p], Ok tt).
Proof.
  intros Htbl Hinfo Hfunc Hslot Hmem.
  unfold annotate. simpl. rewrite Hfunc, Htbl, Hinfo. simpl.
  rewrite Hslot. simpl. unfold deref_pointer. by rewrite Hmem.
Qed.

Lemma annotate_reports_pointer_witness :
  annotate Sample.foo_table Sample.mem42 [Sample.foo_node]
  = ([NodeLine 0; FuncNameLine "foo"; ArgValueLine 3 "ReadOnly" 200], Ok tt).
Proof.
  apply (annotate_reports_pointer Sample.foo_table Sample.mem42
           {| func := "foo"; kernelParams := [10; 20; 30; 100; 40] |}
           {| funcName := "foo"; memoryEffect := "ArgMemOnly";
              ptrArgInfos := [(3, "ReadOnly")] |} 100 200); reflexivity.
Defined.

Lemma annotate_from_app tbl mem pre : forall i out rest,
  annotate_from tbl mem i (pre ++ rest) out =
  match annotate_from tbl mem i pre out with
  | (out', Ok _) => annotate_from tbl mem (i + length pre) rest out'
  | r => r
  end.
Proof.
  induction pre as [|u pre IH]; intros i out rest; simpl.
  - by rewrite Nat.add_0_r.
  - destruct u as [params|]; [|done].
    destruct (tbl !! func params) as [ki|]; [|done].
    destruct (print_args _ _ _ _) as [out3 [[]|e]]; [|done].
    rewrite IH. by rewrite Nat.add_succ_r.
Qed.



Lemma advance_run_from n : forall p q,
  advance n p = inl q -> run_from p = run_from q.
Proof.
  induction n as [|n IH]; intros p q; simpl.
  - by intros [= ->].
  - destruct (step p) as [p'|r] eqn:E; [|done].
    intros H. rewrite (run_from_step _ _ E). by apply IH.
Qed.

Lemma advance_succ n : forall p q,
  advance n p = inl q -> advance (S n) p = step q.
Proof.
  induction n as [|n IH]; intros p q.
  - simpl. intros [= ->]. by destruct (step q).
  - intros H. simpl in H. change (advance (S (S n)) p)
      with (match step p with inl p' => advance (S n) p' | inr r => inr r end).
    destruct (step p) as [p'|r]; [by apply IH|done].
Qed.

(** C5.  Whenever the constructor is at the head of the argument loop
    and the next token is read successfully and is neither [Arg] nor
    [Function], the whole parse fails by [abort()]: the result is a
    failure and carries no table, whatever blocks were read before. *)
Theorem unexpected_keyword_aborts fs n tbl name ki i kw i' :
  advance n (start fs) = inl (ArgHead tbl name ki i) ->
  extract_string "" i = (kw, i') ->
  ok i' = true -> kw <> "Arg" -> kw <> "Function" ->
  MemRedAnalysisParser fs = Some (Threw (Aborted None)).
Proof.
  intros Hpos Hkw Hok Harg Hfun.
  unfold MemRedAnalysisParser.
  rewrite (advance_run_from _ _ _ Hpos). apply run_from_done.
  simpl. rewrite Hkw, Hok.
  apply String.eqb_neq in Harg, Hfun. by rewrite Harg, Hfun.
Qed.

Lemma unexpected_keyword_aborts_witness :
  MemRedAnalysisParser (report_file Sample.bogus_report)
  = Some (Threw (Aborted None)).
Proof.
  eapply (unexpected_keyword_aborts (report_file Sample.bogus_report) 3).
  - vm_compute. reflexivity.
  - vm_compute. reflexivity.
  - reflexivity.
  - discriminate.
  - discriminate.
Defined.

Lemma keeps_insert (tbl t : table) k v :
  keeps (<[k := v]> tbl) t -> is_Some (t !! k) /\ keeps tbl t.
Proof.
  intros H. split.
  - apply H. rewrite lookup_insert_eq. eauto.
  - intros k' Hk'. apply H. rewrite lookup_insert. by case_decide; eauto.
Qed.

Lemma step_arg_head tbl name ki i p :
  step (ArgHead tbl name ki i) = inl p ->
  (exists i', p = BlockHead (<[name := ki]> tbl) i')
  \/ (exists ki' i', p = ArgHead tbl name ki' i').
Proof.
  simpl. destruct (extract_string "" i) as [kw i1].
  destruct (_ || _); [intros [= <-]; eauto|].
  destruct (negb _); [done|].
  destruct (read_arg_line ki i1) as [[ki' i2]|]; [|done].
  intros [= <-]; eauto.
Qed.

Lemma step_arg_head_result tbl name ki i r :
  step (ArgHead tbl name ki i) = inr r -> exists e, r = Threw e.
Proof.
  simpl. destruct (extract_string "" i) as [kw i1].
  destruct (_ || _); [done|].
  destruct (negb _); [intros [= <-]; eauto|].
  destruct (read_arg_line ki i1) as [[ki' i2]|e]; [done|].
  intros [= <-]; eauto.
Qed.

Lemma step_block_head tbl i p :
  step (BlockHead tbl i) = inl p -> exists name ki i', p = ArgHead tbl name ki i'.
Proof.
  simpl. destruct (ok i); [|done]. destruct (ok (find_at i)); [|done].
  destruct (read_header (find_at i)) as [[[name ki] i2]|]; [|done].
  intros [= <-]; eauto.
Qed.

Lemma step_block_head_result tbl i t :
  step (BlockHead tbl i) = inr (Ok t) -> t = tbl.
Proof.
  simpl. destruct (ok i); [|by intros [= <-]].
  destruct (ok (find_at i)); [|by intros [= <-]].
  by destruct (read_header (find_at i)) as [[[name ki] i2]|].
Qed.

(** The name of the block being read is a key of every table the
    constructor ends with, and no key is ever removed. *)
Lemma run_keeps n : forall p t,
  run n p = Some (Ok t) ->
  match p with
  | BlockHead tbl _ => keeps tbl t
  | ArgHead tbl name _ _ => is_Some (t !! name) /\ keeps tbl t
  end.
Proof.
  induction n as [|n IH]; intros p t; simpl; [done|].
  destruct (step p) as [p'|r] eqn:E.
  - intros H. specialize (IH _ _ H). destruct p as [tbl i|tbl name ki i].
    + apply step_block_head in E as (name & ki & i' & ->). apply IH.
    + apply step_arg_head in E as [(i' & ->)|(ki' & i' & ->)]; [|done].
      by apply keeps_insert in IH.
  - intros [= ->]. destruct p as [tbl i|tbl name ki i].
    + apply step_block_head_result in E as ->. by intros k.
    + by apply step_arg_head_result in E as [e ?].
Qed.

(** C7.  At a block whose ['@'] has been found, let [tok] be the token
    read next.  If [tok] has fewer than two characters the parse fails
    (with [std::out_of_range]).  If it has at least two (and a size
    that fits [size_t]), the name of the block, which is also the
    [funcName] of its record and a key of every table the parse ends
    with, is [tok] without its last two characters. *)
Theorem mangled_name_loses_two_characters fs n tbl i tok i1 :
  advance n (start fs) = inl (BlockHead tbl i) ->
  ok i = true -> ok (find_at i) = true ->
  extract_string "" (find_at i) = (tok, i1) ->
  ((String.length tok < 2)%nat ->
     MemRedAnalysisParser fs = Some (Threw OutOfRange))
  /\ ((2 <= String.length tok)%nat ->
      Z.of_nat (String.length tok) <= SIZE_MAX ->
      let key := String.substring 0 (String.length tok - 2) tok in
      (exists ki i2,
         advance (S n) (start fs) = inl (ArgHead tbl key ki i2)
         /\ funcName ki = key)
      /\ forall t, MemRedAnalysisParser fs = Some (Ok t) -> is_Some (t !! key)).
Proof.
  intros Hpos Hok Hat Htok.
  assert (MemRedAnalysisParser fs = run_from (BlockHead tbl i)) as Hrun.
  { unfold MemRedAnalysisParser. by apply (advance_run_from n). }
  split.
  - intros Hlen. rewrite Hrun. apply run_from_done.
    simpl. rewrite Hok, Hat. unfold read_header. rewrite Htok.
    unfold erase, wrap_size_t.
    replace ((Z.of_nat (String.length tok) - 2) mod 2 ^ 64)
      with (Z.of_nat (String.length tok) - 2 + 2 ^ 64).
    + destruct (Z.leb_spec (Z.of_nat (String.length tok) - 2 + 2 ^ 64)
                  (Z.of_nat (String.length tok))); [lia|done].
    + apply (Z.mod_unique _ _ (-1)); lia.
  - intros Hlen Hmax key.
    assert (exists ki i2, step (BlockHead tbl i) = inl (ArgHead tbl key ki i2)
                          /\ funcName ki = key) as (ki & i2 & Hstep & Hki).
    { simpl. rewrite Hok, Hat. unfold read_header. rewrite Htok.
      unfold erase, wrap_size_t. unfold SIZE_MAX in Hmax.
      rewrite Z.mod_small by lia.
      destruct (Z.leb_spec (Z.of_nat (String.length tok) - 2)
                  (Z.of_nat (String.length tok))); [|lia].
      replace (Z.to_nat (Z.of_nat (String.length tok) - 2))
        with (String.length tok - 2)%nat by lia.
      fold key.
      destruct (extract_string "" (skip_token (skip_token i1))) as [eff i4].
      eauto. }
    split.
    + exists ki, i2. split; [|done]. by rewrite (advance_succ _ _ _ Hpos).
    + intros t Ht. rewrite Hrun, (run_from_step _ _ Hstep) in Ht.
      by apply run_keeps in Ht as [? _].
Qed.

Lemma mangled_name_loses_two_characters_witness :
  MemRedAnalysisParser (report_file Sample.short_token_report)
  = Some (Threw OutOfRange)
  /\ exists ki i2,
      advance 1 (start (report_file
        (render [] [Sample.foo_block "_Z3fooPi" "ArgMemOnly" Sample.two_args])))
      = inl (ArgHead ∅ "_Z3fooPi" ki i2).
Proof.
  split.
  - eapply (mangled_name_loses_two_characters
              (report_file Sample.short_token_report) 0).
    + reflexivity.
    + reflexivity.
    + reflexivity.
    + vm_compute. reflexivity.
    + simpl. lia.
  - edestruct (mangled_name_loses_two_characters
                 (report_file
                    (render [] [Sample.foo_block "_Z3fooPi" "ArgMemOnly" Sample.two_args]))
                 0) as [_ H].
    + reflexivity.
    + reflexivity.
    + reflexivity.
    + vm_compute. reflexivity.
    + destruct H as [(ki & i2 & H & _) _].
      * simpl. lia.
      * vm_compute. discriminate.
      * exists ki, i2. exact H.
Defined.

(** C8, refuted as stated: after the effect of an argument line the
    code discards two tokens, not three.  Read as specified, the line
    would swallow the keyword [Arg] of the next line. *)
Lemma capture_value_is_not_a_third_token :
  let kernelInfo := {| funcName := "f"; memoryEffect := "None"; ptrArgInfos := [] |} in
  let kernelInfo' :=
    {| funcName := "f"; memoryEffect := "None"; ptrArgInfos := [(0, "ReadOnly")] |} in
  read_arg_line kernelInfo (fresh Sample.after_arg_keyword)
  = Ok (kernelInfo',
        fresh (chars " Arg #2: Effect: ReadWrite Capture: No"))
  /\ read_arg_line_as_specified kernelInfo (fresh Sample.after_arg_keyword)
     = Ok (kernelInfo',
           fresh (chars " #2: Effect: ReadWrite Capture: No"))
  /\ read_arg_line kernelInfo (fresh Sample.after_arg_keyword)
     <> read_arg_line_as_specified kernelInfo (fresh Sample.after_arg_keyword).
Proof. repeat split; by vm_compute. Qed.

(** C8, amended.  On an argument line beginning with [Arg] the parser
    consumes exactly, in order: two single characters, the decimal
    argument index, two discarded tokens, one token recorded as the
    effect, and two more discarded tokens (the capture label and the
    yes/no value); the pair of the index (converted to [int]) and the
    effect is appended to the argument list of the current block, and
    what follows the line stays unread. *)
Theorem arg_line_is_consumed tbl name ki g a cs :
  blank g = true -> wf_arg a = true ->
  step (ArgHead tbl name ki (fresh (g ++ render_arg a ++ cs)))
  = inl (ArgHead tbl name
           (push_back ki (int_of_size_t (arg_index a), text (a_effect a)))
           (fresh (gap (a_capture a) ++ cs))).
Proof. apply step_arg. Qed.

Lemma arg_line_is_consumed_witness :
  step (ArgHead ∅ "f"
          {| funcName := "f"; memoryEffect := "None"; ptrArgInfos := [] |}
          (fresh ([Sample.LF] ++ render_arg (Sample.arg_line "0" "ReadOnly")
                  ++ chars "Function")))
  = inl (ArgHead ∅ "f"
           {| funcName := "f"; memoryEffect := "None";
              ptrArgInfos := [(0, "ReadOnly")] |}
           (fresh ([Sample.LF] ++ chars "Function"))).
Proof.
  apply (arg_line_is_consumed ∅ "f"
           {| funcName := "f"; memoryEffect := "None"; ptrArgInfos := [] |}
           [Sample.LF] (Sample.arg_line "0" "ReadOnly") (chars "Function"));
    reflexivity.
Defined.

End Claims.

(** * Further properties of [analyzeGraph] *)

Section Annotation.

Lemma print_args_lines mem kp infos : forall out,
  print_args mem kp infos out =
  match arg_value_lines mem kp infos with
  | Some ls => (out ++ ls, Ok tt)
  | None => (fst (print_args mem kp infos out), Threw Undefined)
  end.
Proof.
  induction infos as [|[index effect] infos IH]; intros out; simpl.
  - by rewrite app_nil_r.
  - unfold arg_value_line. simpl.
    destruct (subscript kp index ≫= deref_pointer mem) as [v|]; [|done].
    rewrite IH. destruct (arg_value_lines mem kp infos) as [ls|].
    + by rewrite <- app_assoc.
    + done.
Qed.

Lemma annotate_from_lines tbl mem graph : forall i out out',
  annotate_from tbl mem i graph out = (out', Ok tt) <->
  exists ls, graph_lines tbl mem i graph = Some ls /\ out' = out ++ ls.
Proof.
  induction graph as [|u graph IH]; intros i out out'; simpl.
  - split.
    + intros [= <-]. exists []. by rewrite app_nil_r.
    + intros (ls & [= <-] & ->). by rewrite app_nil_r.
  - destruct u as [params|]; simpl.
    2:{ split; [done|]. by intros (ls & ? & _). }
    destruct (tbl !! func params) as [ki|].
    2:{ split; [done|]. by intros (ls & ? & _). }
    rewrite print_args_lines.
    destruct (arg_value_lines mem (kernelParams params) (ptrArgInfos ki)) as [l|].
    2:{ split; [done|]. by intros (ls & ? & _). }
    rewrite IH. split.
    + intros (ls & Hls & ->). rewrite Hls. eexists. split; [done|].
      rewrite <- !app_assoc. done.
    + intros (ls & Hls & ->).
      destruct (graph_lines tbl mem (S i) graph) as [ls'|]; [|done].
      injection Hls as <-. exists ls'. split; [done|].
      by rewrite <- !app_assoc.
Qed.

(** X14.  The annotation of a graph succeeds exactly when every
    node is a kernel node known to the table whose listed arguments can
    all be read, and the output is then the reports of the nodes in
    order: a [Node] line with the ordinal, a [Func Name] line, and one
    line per pair of [ptrArgInfos]. *)
Theorem annotate_output_on_success tbl mem graph out :
  annotate tbl mem graph = (out, Ok tt) <-> graph_lines tbl mem 0 graph = Some out.
Proof.
  unfold annotate. rewrite annotate_from_lines. simpl. split.
  - by intros (ls & ? & ->).
  - intros H. by exists out.
Qed.

(** X15.  Once a node fails, the annotation is over: the nodes
    that follow have no influence on the output or on the failure. *)
Theorem annotate_stops_at_first_failure tbl mem g1 g2 out e :
  annotate tbl mem g1 = (out, Threw e) ->
  annotate tbl mem (g1 ++ g2) = (out, Threw e).
Proof.
  unfold annotate. intros H. by rewrite annotate_from_app, H.
Qed.

Lemma annotate_stops_at_first_failure_witness :
  annotate Sample.foo_table Sample.mem42
    ([Sample.foo_node; OtherNode] ++ [Sample.foo_node])
  = ([NodeLine 0; FuncNameLine "foo"; ArgValueLine 3 "ReadOnly" 200;
      NodeLine 1; CudaErrorLine], Threw RuntimeError).
Proof.
  apply (annotate_stops_at_first_failure Sample.foo_table Sample.mem42
           [Sample.foo_node; OtherNode] [Sample.foo_node]).
  reflexivity.
Defined.

Lemma subscript_outside kp index :
  index < 0 \/ Z.of_nat (length kp) <= index -> subscript kp index = None.
Proof.
  unfold subscript. intros [H|H].
  - destruct (Z.leb_spec 0 index); [lia|done].
  - destruct (Z.leb_spec 0 index); [|done].
    apply lookup_ge_None. lia.
Qed.

Lemma print_args_app mem kp l1 l2 out :
  print_args mem kp (l1 ++ l2) out =
  match print_args mem kp l1 out with
  | (out', Ok _) => print_args mem kp l2 out'
  | r => r
  end.
Proof.
  revert out. induction l1 as [|[index effect] l1 IH]; intros out; simpl; [done|].
  destruct (subscript kp index ≫= deref_pointer mem); [|done]. apply IH.
Qed.

(** X16.  An index of [ptrArgInfos] that is negative or not below
    the number of arguments of the node is used without any check
    (line 117): undefined behaviour, after the lines of the node
    printed so far. *)
Theorem index_outside_arguments_is_undefined
    tbl mem pre params post out ki before index effect after ls :
  annotate tbl mem pre = (out, Ok tt) ->
  tbl !! func params = Some ki ->
  ptrArgInfos ki = before ++ (index, effect) :: after ->
  arg_value_lines mem (kernelParams params) before = Some ls ->
  index < 0 \/ Z.of_nat (length (kernelParams params)) <= index ->
  annotate tbl mem (pre ++ KernelNode params :: post)
  = (out ++ [NodeLine (length pre); FuncNameLine (funcName ki)] ++ ls,
     Threw Undefined).
Proof.
  intros Hpre Hki Hinfos Hls Hout. unfold annotate in *.
  rewrite annotate_from_app, Hpre. simpl. rewrite Hki, Hinfos.
  rewrite print_args_app, print_args_lines, Hls. simpl.
  rewrite subscript_outside by done. simpl.
  by rewrite <- !app_assoc.
Qed.

Lemma index_outside_arguments_is_undefined_witness :
  annotate Sample.foo_table Sample.mem42
    ([Sample.foo_node] ++
     KernelNode {| func := "foo"; kernelParams := [10; 20; 30] |} :: [])
  = ([NodeLine 0; FuncNameLine "foo"; ArgValueLine 3 "ReadOnly" 200]
       ++ [NodeLine 1; FuncNameLine "foo"] ++ [],
     Threw Undefined).
Proof.
  apply (index_outside_arguments_is_undefined Sample.foo_table Sample.mem42
           [Sample.foo_node] {| func := "foo"; kernelParams := [10; 20; 30] |} []
           [NodeLine 0; FuncNameLine "foo"; ArgValueLine 3 "ReadOnly" 200]
           {| funcName := "foo"; memoryEffect := "ArgMemOnly";
              ptrArgInfos := [(3, "ReadOnly")] |}
           [] 3 "ReadOnly" [] []).
  - reflexivity.
  - reflexivity.
  - reflexivity.
  - reflexivity.
  - right. simpl. lia.
Defined.

(** X17.  A node that is not a kernel node makes [CUDA_CHECK]
    print its error line after the [Node] line and throw
    [std::runtime_error]. *)
Theorem non_kernel_node_throws tbl mem pre post out :
  annotate tbl mem pre = (out, Ok tt) ->
  annotate tbl mem (pre ++ OtherNode :: post)
  = (out ++ [NodeLine (length pre); CudaErrorLine], Threw RuntimeError).
Proof.
  intros Hpre. unfold annotate in *.
  rewrite annotate_from_app, Hpre. simpl. by rewrite <- app_assoc.
Qed.

Lemma non_kernel_node_throws_witness :
  annotate Sample.foo_table Sample.mem42 ([Sample.foo_node] ++ OtherNode :: [Sample.foo_node])
  = ([NodeLine 0; FuncNameLine "foo"; ArgValueLine 3 "ReadOnly" 200]
       ++ [NodeLine 1; CudaErrorLine], Threw RuntimeError).
Proof.
  apply (non_kernel_node_throws Sample.foo_table Sample.mem42
           [Sample.foo_node] [Sample.foo_node]
           [NodeLine 0; FuncNameLine "foo"; ArgValueLine 3 "ReadOnly" 200]).
  reflexivity.
Defined.

Lemma annotate_from_forget (t1 t2 : table) mem graph :
  forget_memory_effect <$> t1 = forget_memory_effect <$> t2 ->
  forall i out, annotate_from t1 mem i graph out = annotate_from t2 mem i graph out.
Proof.
  intros H. induction graph as [|u graph IH]; intros i out; simpl; [done|].
  destruct u as [params|]; [|done].
  assert (forget_memory_effect <$> (t1 !! func params)
          = forget_memory_effect <$> (t2 !! func params)) as E.
  { by rewrite <- !lookup_fmap, H. }
  destruct (t1 !! func params) as [k1|], (t2 !! func params) as [k2|];
    simpl in E; try done.
  injection E as E1 E2. rewrite E1, E2.
  destruct (print_args _ _ _ _) as [out3 [[]|e]]; [apply IH|done].
Qed.

(** X18.  The annotation never looks at the [memoryEffect] of an
    entry: tables that agree up to that field give the same output. *)
Theorem memory_effect_is_not_consulted (t1 t2 : table) mem graph :
  forget_memory_effect <$> t1 = forget_memory_effect <$> t2 ->
  annotate t1 mem graph = annotate t2 mem graph.
Proof. intros H. by apply annotate_from_forget. Qed.

Lemma memory_effect_is_not_consulted_witness :
  annotate Sample.foo_table Sample.mem42 [Sample.foo_node]
  = annotate {[ "foo" := {| funcName := "foo"; memoryEffect := "None";
                            ptrArgInfos := [(3, "ReadOnly")] |} ]}
      Sample.mem42 [Sample.foo_node].
Proof.
  apply (memory_effect_is_not_consulted Sample.foo_table
           {[ "foo" := {| funcName := "foo"; memoryEffect := "None";
                          ptrArgInfos := [(3, "ReadOnly")] |} ]}).
  vm_compute. reflexivity.
Defined.

End Annotation.

(** * Further properties of the constructor *)

Section Invariants.
Import Report.

(** A property kept by every iteration holds of the resulting table. *)
Lemma run_invariant (I : position -> Prop) (Q : table -> Prop) :
  (forall p p', I p -> step p = inl p' -> I p') ->
  (forall p t, I p -> step p = inr (Ok t) -> Q t) ->
  forall n p t, I p -> run n p = Some (Ok t) -> Q t.
Proof.
  intros Hstep Hend. induction n as [|n IH]; intros p t Hp; simpl; [done|].
  destruct (step p) as [p'|r] eqn:E.
  - apply IH. by apply (Hstep p).
  - intros [= ->]. by apply (Hend p).
Qed.

(** A failure is raised by the last iteration. *)
Lemma run_failure n : forall p e,
  run n p = Some (Threw e) -> exists q, step q = inr (Threw e).
Proof.
  induction n as [|n IH]; intros p e; simpl; [done|].
  destruct (step p) as [p'|r] eqn:E; [apply IH|].
  intros [= ->]. eauto.
Qed.

Lemma read_header_name i name ki i' :
  read_header i = Ok (name, ki, i') -> funcName ki = name.
Proof.
  unfold read_header. destruct (extract_string "" i) as [tok i1].
  destruct (erase tok _); [|done].
  destruct (extract_string "" (skip_token (skip_token i1))) as [eff i4].
  by intros [= <- <- _].
Qed.

Lemma read_header_failure i e : read_header i = Threw e -> e = OutOfRange.
Proof.
  unfold read_header. destruct (extract_string "" i) as [tok i1].
  destruct (erase tok _); [|by intros [= <-]].
  by destruct (extract_string "" (skip_token (skip_token i1))).
Qed.

Lemma read_arg_line_name ki i ki' i' :
  read_arg_line ki i = Ok (ki', i') -> funcName ki' = funcName ki.
Proof.
  unfold read_arg_line. destruct (extract_size_t None _) as [[n|] i3].
  - destruct (extract_string "" _) as [eff i6]. by intros [= <- _].
  - by destruct (extract_string "" _).
Qed.

Lemma read_arg_line_failure ki i e : read_arg_line ki i = Threw e -> e = Undefined.
Proof.
  unfold read_arg_line. destruct (extract_size_t None _) as [[n|] i3];
    destruct (extract_string "" _) as [eff i6]; [done|by intros [= <-]].
Qed.

Lemma consistent_step p p' : consistent p -> step p = inl p' -> consistent p'.
Proof.
  destruct p as [tbl i|tbl name ki i]; simpl.
  - intros Htbl. destruct (ok i); [|done]. destruct (ok (find_at i)); [|done].
    destruct (read_header (find_at i)) as [[[name ki] i2]|] eqn:E; [|done].
    intros [= <-]. simpl. split; [done|]. by eapply read_header_name.
  - intros [Htbl Hki]. destruct (extract_string "" i) as [kw i1].
    destruct (_ || _).
    + intros [= <-]. simpl. intros k v. rewrite lookup_insert.
      case_decide; [by intros [= <-]; subst|apply Htbl].
    + destruct (negb _); [done|].
      destruct (read_arg_line ki i1) as [[ki' i2]|] eqn:E; [|done].
      intros [= <-]. simpl. split; [done|].
      by rewrite (read_arg_line_name _ _ _ _ E).
Qed.

Lemma parser_filed_by_name fs tbl :
  MemRedAnalysisParser fs = Some (Ok tbl) -> filed_by_name tbl.
Proof.
  intros Hrun.
  apply (run_invariant consistent filed_by_name consistent_step)
    with (n := S (unread (start fs))) (p := start fs).
  - intros [t i|t name ki i] t'; simpl.
    + intros Ht E. by apply step_block_head_result in E as ->.
    + intros _ E. by apply step_arg_head_result in E as [e ?].
  - simpl. intros k v. by rewrite lookup_empty.
  - exact Hrun.
Qed.

(** X1.  Every entry of the table the constructor returns is filed
    under the [funcName] it holds: key and record never disagree. *)
Theorem entries_are_filed_by_name fs tbl k kernelInfo :
  MemRedAnalysisParser fs = Some (Ok tbl) ->
  tbl !! k = Some kernelInfo ->
  funcName kernelInfo = k.
Proof. intros Hrun. by apply (parser_filed_by_name fs). Qed.

Lemma entries_are_filed_by_name_witness :
  funcName {| funcName := "_Z3fooPi"; memoryEffect := "ArgMemOnly";
              ptrArgInfos := [(0, "ReadOnly"); (2, "ReadWrite")] |}
  = "_Z3fooPi".
Proof.
  eapply (entries_are_filed_by_name
            (report_file (render [] [Sample.foo_block "_Z3fooPi" "ArgMemOnly" Sample.two_args]))).
  - vm_compute. reflexivity.
  - vm_compute. reflexivity.
Defined.

(** X3.  The constructor fails in three ways only: by [abort()]
    with nothing written to [std::cerr], by [std::out_of_range], or by
    reading the index it never stored; it raises no other error. *)
Theorem parser_fails_in_three_ways fs e :
  MemRedAnalysisParser fs = Some (Threw e) ->
  e = Aborted None \/ e = OutOfRange \/ e = Undefined.
Proof.
  intros H. apply run_failure in H as [[tbl i|tbl name ki i] E]; simpl in E.
  - destruct (ok i); [|done]. destruct (ok (find_at i)); [|done].
    destruct (read_header (find_at i)) as [[[n k] i2]|e'] eqn:R; [done|].
    injection E as <-. apply read_header_failure in R. auto.
  - destruct (extract_string "" i) as [kw i1]. destruct (_ || _); [done|].
    destruct (negb _); [injection E as <-; auto|].
    destruct (read_arg_line ki i1) as [[k i2]|e'] eqn:R; [done|].
    injection E as <-. apply read_arg_line_failure in R. auto.
Qed.

Lemma parser_fails_in_three_ways_witness :
  Aborted None = Aborted None \/ Aborted None = OutOfRange
  \/ Aborted None = Undefined.
Proof.
  apply (parser_fails_in_three_ways (report_file Sample.bogus_report)).
  vm_compute. reflexivity.
Defined.

(** X2.  A name that is a key of the table at some point of the
    parse is a key of the table the constructor returns: later input
    can replace an entry but never removes one. *)
Theorem keys_are_never_removed fs n p k t :
  advance n (start fs) = inl p ->
  is_Some (table_at p !! k) ->
  MemRedAnalysisParser fs = Some (Ok t) ->
  is_Some (t !! k).
Proof.
  intros Hpos Hk Hrun. unfold MemRedAnalysisParser in Hrun.
  rewrite (advance_run_from _ _ _ Hpos) in Hrun.
  apply run_keeps in Hrun. destruct p as [tbl i|tbl name ki i]; simpl in *.
  - by apply Hrun.
  - by apply Hrun.
Qed.

Lemma keys_are_never_removed_witness :
  is_Some
    (({[ "f" := {| funcName := "f"; memoryEffect := "ArgMemOnly";
                   ptrArgInfos := [(0, "ReadOnly"); (2, "ReadWrite")] |};
         "g" := {| funcName := "g"; memoryEffect := "None"; ptrArgInfos := [] |} ]}
      : table) !! "f").
Proof.
  eapply (keys_are_never_removed
            (report_file (render [] [Sample.foo_block "f" "ArgMemOnly" Sample.two_args;
                                     Sample.foo_block "g" "None" []])) 4).
  - vm_compute. reflexivity.
  - vm_compute. eexists. reflexivity.
  - vm_compute. reflexivity.
Defined.

Lemma run_from_same_step p q : step p = step q -> run_from p = run_from q.
Proof.
  intros E. destruct (step q) as [q'|r] eqn:Hq.
  - by rewrite (run_from_step _ _ E), (run_from_step _ _ Hq).
  - by rewrite (run_from_done _ _ E), (run_from_done _ _ Hq).
Qed.

(** X4.  A report without any ['@'] character (the empty file
    included) is read to its end and yields the empty table, without
    error. *)
Theorem report_without_at_sign_is_empty cs :
  no_at cs = true ->
  MemRedAnalysisParser (report_file cs) = Some (Ok ∅).
Proof.
  intros H. unfold MemRedAnalysisParser, start, report_file.
  rewrite String.eqb_refl. apply run_from_done.
  unfold step, find_at. cbn [ifstream ok good fresh failbit eofbit rdbuf negb andb].
  by rewrite find_at_buf_none.
Qed.

Lemma report_without_at_sign_is_empty_witness :
  MemRedAnalysisParser (report_file (chars "Function void foo(int) with no mangled name"))
  = Some (Ok ∅).
Proof.
  apply (report_without_at_sign_is_empty
           (chars "Function void foo(int) with no mangled name")).
  reflexivity.
Defined.

(** X5.  Whatever precedes the first ['@'] of the report has no
    influence on the result. *)
Theorem text_before_first_at_sign_is_ignored pre cs :
  no_at pre = true ->
  MemRedAnalysisParser (report_file (pre ++ "@"%char :: cs))
  = MemRedAnalysisParser (report_file ("@"%char :: cs)).
Proof.
  intros H. unfold MemRedAnalysisParser, start, report_file.
  rewrite String.eqb_refl. apply run_from_same_step.
  unfold step, find_at. cbn [ifstream ok good fresh failbit eofbit rdbuf negb andb].
  by rewrite find_at_buf_app.
Qed.

Lemma text_before_first_at_sign_is_ignored_witness :
  MemRedAnalysisParser (report_file (chars "Function void foo(int) (" ++ "@"%char :: chars "f): Memory Effect: None"))
  = MemRedAnalysisParser (report_file ("@"%char :: chars "f): Memory Effect: None")).
Proof.
  apply (text_before_first_at_sign_is_ignored (chars "Function void foo(int) (")
           (chars "f): Memory Effect: None")).
  reflexivity.
Defined.

Lemma printed_names_app a b :
  printed_names (a ++ b) = printed_names a ++ printed_names b.
Proof.
  induction a as [|l a IH]; simpl; [done|]. destruct l; simpl; by rewrite ?IH.
Qed.

Lemma print_args_names mem kp infos : forall out,
  printed_names (fst (print_args mem kp infos out)) = printed_names out.
Proof.
  induction infos as [|[index effect] infos IH]; intros out; simpl; [done|].
  destruct (subscript kp index ≫= deref_pointer mem); [|done].
  rewrite IH, printed_names_app. simpl. by rewrite app_nil_r.
Qed.

Lemma annotate_from_names tbl mem graph :
  filed_by_name tbl ->
  forall i out out' r,
    annotate_from tbl mem i graph out = (out', r) ->
    exists names rest,
      printed_names out' = printed_names out ++ names
      /\ kernel_names graph = names ++ rest
      /\ (r = Ok tt -> rest = []).
Proof.
  intros Htbl. induction graph as [|u graph IH]; intros i out out' r; simpl.
  - intros [= <- <-]. exists [], []. by rewrite app_nil_r.
  - destruct u as [params|].
    2:{ intros [= <- <-]. exists [], (kernel_names graph).
        rewrite !printed_names_app. simpl. by rewrite !app_nil_r. }
    destruct (tbl !! func params) as [ki|] eqn:Hki.
    2:{ intros [= <- <-]. exists [], (func params :: kernel_names graph).
        rewrite !printed_names_app. simpl. by rewrite !app_nil_r. }
    apply Htbl in Hki.
    pose proof (print_args_names mem (kernelParams params) (ptrArgInfos ki)
                  ((out ++ [NodeLine i]) ++ [FuncNameLine (funcName ki)])) as Hn.
    destruct (print_args _ _ _ _) as [out3 [[]|e]]; simpl in Hn.
    + intros H. apply IH in H as (names & rest & H1 & H2 & H3).
      exists (func params :: names), rest. rewrite H1, Hn, H2.
      rewrite !printed_names_app. simpl. rewrite Hki, app_nil_r.
      by rewrite <- app_assoc.
    + intros [= <- <-]. exists [func params], (kernel_names graph).
      rewrite Hn, !printed_names_app. simpl. by rewrite Hki, app_nil_r.
Qed.

(** X19.  With the table built by the constructor, the names
    printed in [Func Name] lines are the function names of the kernel
    nodes, in order, up to the node at which the run stops; on success
    they are the function names of all nodes. *)
Theorem printed_names_are_the_node_functions fs mem graph out r :
  analyzeGraph fs mem graph = Some (out, r) ->
  (exists rest, kernel_names graph = printed_names out ++ rest)
  /\ (r = Ok tt -> printed_names out = kernel_names graph).
Proof.
  unfold analyzeGraph.
  destruct (MemRedAnalysisParser fs) as [[tbl|e]|] eqn:Hparse; [| |done].
  - intros [= H]. unfold annotate in H.
    apply annotate_from_names in H as (names & rest & H1 & H2 & H3).
    + simpl in H1. subst names. split; [by exists rest|].
      intros Hr. rewrite H2, (H3 Hr). by rewrite app_nil_r.
    + by apply (parser_filed_by_name fs).
  - intros [= <- <-]. split; [by exists (kernel_names graph)|done].
Qed.

Lemma printed_names_are_the_node_functions_witness :
  printed_names [NodeLine 0; FuncNameLine "foo"; ArgValueLine 3 "ReadOnly" 200]
  = kernel_names [Sample.foo_node].
Proof.
  eapply (printed_names_are_the_node_functions (report_file Cases.foo_report)
            Sample.mem42 [Sample.foo_node]).
  - vm_compute. reflexivity.
  - reflexivity.
Defined.

End Invariants.

(** * Tables of well-formed reports *)

Section Tables.
Import Report.

Lemma fold_record_lookup bs k : forall (m : table),
  fold_left record_block bs m !! k =
  match last_named k bs with
  | Some b => Some (block_info b)
  | None => m !! k
  end.
Proof.
  induction bs as [|b bs IH]; intros m; simpl; [done|].
  rewrite IH. destruct (last_named k bs); [done|].
  unfold record_block. rewrite lookup_insert.
  destruct (String.eqb_spec (b_name b) k) as [->|Hne].
  - by rewrite decide_True.
  - by rewrite decide_False.
Qed.

(** X6.  For a well-formed report with any number of blocks, the
    parse succeeds and looking a name up in the table gives the data of
    the last block carrying that name, and nothing for a name no block
    carries. *)
Theorem lookup_gives_the_last_block pre bs :
  wf pre bs = true ->
  exists tbl,
    MemRedAnalysisParser (report_file (render pre bs)) = Some (Ok tbl)
    /\ forall k, tbl !! k = block_info <$> last_named k bs.
Proof.
  intros Hwf. exists (table_of bs). split; [by apply parse_render|].
  intros k. unfold table_of. rewrite fold_record_lookup, lookup_empty.
  by destruct (last_named k bs).
Qed.

Lemma lookup_gives_the_last_block_witness :
  exists tbl,
    MemRedAnalysisParser
      (report_file (render [] [Sample.foo_block "f" "None" Sample.same_index_twice;
                               Sample.foo_block "g" "None" [];
                               Sample.foo_block "f" "ArgMemOnly" Sample.two_args]))
    = Some (Ok tbl)
    /\ forall k, tbl !! k = block_info <$>
         last_named k [Sample.foo_block "f" "None" Sample.same_index_twice;
                       Sample.foo_block "g" "None" [];
                       Sample.foo_block "f" "ArgMemOnly" Sample.two_args].
Proof.
  apply (lookup_gives_the_last_block []
           [Sample.foo_block "f" "None" Sample.same_index_twice;
            Sample.foo_block "g" "None" [];
            Sample.foo_block "f" "ArgMemOnly" Sample.two_args]).
  reflexivity.
Defined.

Lemma decimal_from_nonneg ds : forall acc,
  forallb isdigit ds = true -> 0 <= acc ->
  0 <= fold_left (fun acc c => 10 * acc + digit_val c) ds acc.
Proof.
  induction ds as [|d ds IH]; intros acc; simpl; [done|].
  intros [Hd Hds]%andb_true_iff Hacc. apply IH; [done|].
  unfold isdigit in Hd. apply andb_true_iff in Hd as [Hd _].
  apply Nat.leb_le in Hd. unfold digit_val. lia.
Qed.

Lemma int_of_size_t_same n :
  0 <= n -> (int_of_size_t n = n <-> n < 2 ^ 31).
Proof.
  intros Hn. unfold int_of_size_t. split.
  - intros H. pose proof (Z.mod_pos_bound (n + 2 ^ 31) (2 ^ 32)). lia.
  - intros H. rewrite Z.mod_small; lia.
Qed.

Lemma stored_indices_same l :
  forallb wf_arg l = true ->
  (map fst (map arg_info l) = map arg_index l <-> forallb fits_int l = true).
Proof.
  induction l as [|a l IH]; simpl; [done|].
  intros [Ha Hl]%andb_true_iff. specialize (IH Hl).
  assert (0 <= arg_index a) as Hpos.
  { apply wf_arg_inv in Ha as (_ & _ & _ & Hd & _).
    by apply decimal_from_nonneg. }
  rewrite andb_true_iff. unfold fits_int at 1. rewrite Z.ltb_lt.
  rewrite <- (int_of_size_t_same _ Hpos), <- IH. split.
  - by intros [= ? ?].
  - intros [H1 H2]. by rewrite H1, H2.
Qed.

(** X7.  The indices of a block are stored as written exactly
    when each of them is below [2^31]: the conversion of the [size_t]
    read at line 72 to the [int] of the pair changes every larger
    index. *)
Theorem indices_are_stored_verbatim_iff_they_fit_int pre b :
  wf pre [b] = true ->
  exists kernelInfo,
    MemRedAnalysisParser (report_file (render pre [b]))
    = Some (Ok {[ b_name b := kernelInfo ]})
    /\ (map fst (ptrArgInfos kernelInfo) = map arg_index (b_args b)
        <-> forallb fits_int (b_args b) = true).
Proof.
  intros Hwf. exists (block_info b). split; [by rewrite parse_render|].
  apply stored_indices_same.
  unfold wf in Hwf. simpl in Hwf. rewrite andb_true_r in Hwf.
  apply andb_true_iff in Hwf as [_ Hb]. by apply wf_block_inv in Hb as (_ & _ & ? & _).
Qed.

Lemma indices_are_stored_verbatim_iff_they_fit_int_witness :
  exists kernelInfo,
    MemRedAnalysisParser (report_file (render [] [Cases.wide_index_block]))
    = Some (Ok {[ "f" := kernelInfo ]})
    /\ (map fst (ptrArgInfos kernelInfo) = [4294967296]
        <-> forallb fits_int (b_args Cases.wide_index_block) = true).
Proof.
  apply (indices_are_stored_verbatim_iff_they_fit_int [] Cases.wide_index_block).
  reflexivity.
Defined.

End Tables.

(** * Truncated and malformed reports *)

Section Edges.
Import Report.

Lemma setfail_failed i : failbit i = true -> setfail i = i.
Proof. destruct i as [b e f]. simpl. by intros ->. Qed.

Lemma good_failed i : failbit i = true -> good i = false.
Proof. unfold good. intros ->. by rewrite andb_false_r. Qed.

(** On a failed stream every extraction leaves everything as it is. *)
Lemma extract_string_failed str i :
  failbit i = true -> extract_string str i = (str, i).
Proof.
  intros H. unfold extract_string, sentry.
  by rewrite good_failed, setfail_failed.
Qed.

Lemma skip_token_failed i : failbit i = true -> skip_token i = i.
Proof. intros H. unfold skip_token. by rewrite extract_string_failed. Qed.

(** Reading the last token of the input. *)
Lemma extract_string_final str g tk :
  blank g = true -> is_nil tk = false -> forallb notspace tk = true ->
  extract_string str (fresh (g ++ tk)) = (string_of_list_ascii tk, at_end).
Proof.
  intros Hg Hne Ht. unfold extract_string, sentry. simpl.
  rewrite skipws_blank by done.
  destruct tk as [|c l]; [done|].
  rewrite skipws_stop.
  2:{ simpl in *. by apply andb_true_iff in Ht as [? ?]. }
  simpl rdbuf.
  assert (forall t, forallb notspace t = true ->
                    span (fun c => negb (isspace c)) t = (t, [])) as Hspan.
  { induction t as [|d t IH]; simpl; [done|].
    unfold notspace at 1. intros [-> Hd]%andb_true_iff. by rewrite IH. }
  by rewrite Hspan.
Qed.

(** Once the stream has failed at the head of the argument loop, the
    block is recorded and the constructor returns. *)
Lemma run_from_failed_arg tbl name ki i :
  failbit i = true ->
  run_from (ArgHead tbl name ki i) = Some (Ok (<[name := ki]> tbl)).
Proof.
  intros H.
  assert (step (ArgHead tbl name ki i) = inl (BlockHead (<[name := ki]> tbl) i)) as E.
  { simpl. rewrite extract_string_failed by done.
    unfold ok. by rewrite H. }
  rewrite (run_from_step _ _ E). apply run_from_done.
  simpl. unfold ok. by rewrite H.
Qed.

(** The same when the input ended with the last token read. *)
Lemma run_from_at_end tbl name ki :
  run_from (ArgHead tbl name ki at_end) = Some (Ok (<[name := ki]> tbl)).
Proof.
  assert (step (ArgHead tbl name ki at_end)
          = inl (BlockHead (<[name := ki]> tbl) (setfail at_end))) as E by done.
  rewrite (run_from_step _ _ E). by apply run_from_done.
Qed.

(** An argument line whose index cannot be converted: the value the
    conversion leaves is stored with an empty effect. *)
Lemma read_arg_line_bad_index ki i v i3 :
  extract_size_t None (snd (read (snd (read i)))) = (Some v, i3) ->
  failbit i3 = true ->
  read_arg_line ki i = Ok (push_back ki (int_of_size_t v, ""), i3).
Proof.
  intros E H. unfold read_arg_line. rewrite E. cbv beta iota.
  rewrite !(skip_token_failed i3) by done.
  rewrite (extract_string_failed "" i3) by done.
  by rewrite !(skip_token_failed i3).
Qed.

Lemma span_stop p t cs :
  forallb p t = true -> starts p cs = false -> span p (t ++ cs) = (t, cs).
Proof.
  intros Ht Hcs. induction t as [|c t IH]; simpl in *.
  - destruct cs as [|d cs]; simpl in *; [done|]. by rewrite Hcs.
  - apply andb_true_iff in Ht as [-> Ht]. by rewrite IH.
Qed.

(** The index extraction on digits that exceed [SIZE_MAX]. *)
Lemma extract_size_t_overflow g ds cs :
  blank g = true -> is_nil ds = false -> forallb isdigit ds = true ->
  (SIZE_MAX <? decimal ds) = true -> starts isdigit cs = false ->
  extract_size_t None (fresh (g ++ ds ++ cs))
  = (Some SIZE_MAX, {| rdbuf := cs; eofbit := is_nil cs; failbit := true |}).
Proof.
  intros Hg Hne Hds Hmax Hcs. unfold extract_size_t, sentry. simpl.
  rewrite skipws_blank by done.
  destruct ds as [|d ds]; [done|]. simpl in Hds.
  apply andb_true_iff in Hds as [Hd Hds].
  rewrite skipws_stop.
  2:{ simpl. unfold notspace. by rewrite isdigit_notspace. }
  cbn [app rdbuf fresh]. unfold num_get.
  destruct (isdigit_nosign d Hd) as [-> ->].
  change (d :: ds ++ cs) with ((d :: ds) ++ cs).
  rewrite (span_stop isdigit); [|by simpl; rewrite Hd|done].
  cbn [is_nil]. by rewrite Hmax.
Qed.

(** The index extraction where no number starts. *)
Lemma extract_size_t_no_digit g cs :
  blank g = true -> starts starts_no_number cs = true ->
  extract_size_t None (fresh (g ++ cs))
  = (Some 0, {| rdbuf := cs; eofbit := false; failbit := true |}).
Proof.
  intros Hg Hcs. unfold extract_size_t, sentry. simpl.
  rewrite skipws_blank by done.
  destruct cs as [|c cs]; [done|]. simpl in Hcs.
  unfold starts_no_number in Hcs. rewrite !andb_true_iff, !negb_true_iff in Hcs.
  destruct Hcs as [[[Hs Hd] Hm] Hp].
  simpl skipws. rewrite Hs. cbn [rdbuf fresh]. unfold num_get.
  rewrite Hm, Hp. simpl span. by rewrite Hd.
Qed.

Lemma step_arg_bad_index tbl name ki g c1 c2 cs v i3 :
  blank g = true -> isspace c1 = true ->
  extract_size_t None (fresh cs) = (Some v, i3) -> failbit i3 = true ->
  run_from (ArgHead tbl name ki (fresh (g ++ chars "Arg" ++ [c1; c2] ++ cs)))
  = Some (Ok (<[name := push_back ki (int_of_size_t v, "")]> tbl)).
Proof.
  intros Hg Hc1 E Hf.
  assert (step (ArgHead tbl name ki (fresh (g ++ chars "Arg" ++ [c1; c2] ++ cs)))
          = inl (ArgHead tbl name (push_back ki (int_of_size_t v, "")) i3)) as S.
  { unfold step. rewrite extract_string_word; [|done..].
    by rewrite (read_arg_line_bad_index ki _ v i3). }
  rewrite (run_from_step _ _ S). by apply run_from_failed_arg.
Qed.

(** X12.  An argument index above [SIZE_MAX] raises no error: the
    extraction fails, the pair [(-1, "")] is appended, the block is
    recorded and the rest of the report is not read. *)
Theorem index_overflow_ends_the_parse fs n tbl name ki g c1 c2 g' ds cs :
  advance n (start fs)
  = inl (ArgHead tbl name ki
           (fresh (g ++ chars "Arg" ++ [c1; c2] ++ g' ++ ds ++ cs))) ->
  blank g = true -> isspace c1 = true -> blank g' = true ->
  is_nil ds = false -> forallb isdigit ds = true ->
  (SIZE_MAX <? decimal ds) = true -> starts isdigit cs = false ->
  MemRedAnalysisParser fs
  = Some (Ok (<[name := push_back ki (-1, "")]> tbl)).
Proof.
  intros Hpos Hg Hc1 Hg' Hne Hds Hmax Hcs. unfold MemRedAnalysisParser.
  rewrite (advance_run_from _ _ _ Hpos).
  by rewrite (step_arg_bad_index tbl name ki g c1 c2 _ SIZE_MAX _ Hg Hc1
                (extract_size_t_overflow g' ds cs Hg' Hne Hds Hmax Hcs)).
Qed.

Lemma index_overflow_ends_the_parse_witness :
  MemRedAnalysisParser (report_file Cases.overflow_report)
  = Some (Ok {[ "f" := {| funcName := "f"; memoryEffect := "None";
                          ptrArgInfos := [(-1, "")] |} ]}).
Proof.
  apply (index_overflow_ends_the_parse (report_file Cases.overflow_report) 1 ∅ "f"
           {| funcName := "f"; memoryEffect := "None"; ptrArgInfos := [] |}
           [Sample.LF] Sample.SP "#"%char [] (chars "99999999999999999999")
           (chars ": Effect: ReadOnly Capture: No" ++ [Sample.LF])); reflexivity.
Defined.

(** X13.  An argument line on which no number follows the two
    characters after [Arg] raises no error: the pair [(0, "")] is
    appended, the block is recorded and the rest of the report is not
    read. *)
Theorem missing_index_ends_the_parse fs n tbl name ki g c1 c2 g' cs :
  advance n (start fs)
  = inl (ArgHead tbl name ki (fresh (g ++ chars "Arg" ++ [c1; c2] ++ g' ++ cs))) ->
  blank g = true -> isspace c1 = true -> blank g' = true ->
  starts starts_no_number cs = true ->
  MemRedAnalysisParser fs
  = Some (Ok (<[name := push_back ki (0, "")]> tbl)).
Proof.
  intros Hpos Hg Hc1 Hg' Hcs. unfold MemRedAnalysisParser.
  rewrite (advance_run_from _ _ _ Hpos).
  by rewrite (step_arg_bad_index tbl name ki g c1 c2 _ 0 _ Hg Hc1
                (extract_size_t_no_digit g' cs Hg' Hcs)).
Qed.

Lemma missing_index_ends_the_parse_witness :
  MemRedAnalysisParser (report_file Cases.missing_index_report)
  = Some (Ok {[ "f" := {| funcName := "f"; memoryEffect := "None";
                          ptrArgInfos := [(0, "")] |} ]}).
Proof.
  apply (missing_index_ends_the_parse (report_file Cases.missing_index_report) 1 ∅ "f"
           {| funcName := "f"; memoryEffect := "None"; ptrArgInfos := [] |}
           [Sample.LF] Sample.SP "#"%char []
           (chars "x: Effect: ReadOnly Capture: No" ++ [Sample.LF])); reflexivity.
Defined.

(** X11.  When the input ends after the keyword [Arg] and at most
    two further characters (and white space), the index is never stored
    and line 79 reads the uninitialised [argumentIndex]: undefined
    behaviour. *)
Theorem report_cut_after_arg_is_undefined fs n tbl name ki g tail :
  advance n (start fs)
  = inl (ArgHead tbl name ki (fresh (g ++ chars "Arg" ++ tail))) ->
  blank g = true -> blank (take 1 tail) = true -> blank (drop 2 tail) = true ->
  MemRedAnalysisParser fs = Some (Threw Undefined).
Proof.
  intros Hpos Hg H1 H2. unfold MemRedAnalysisParser.
  rewrite (advance_run_from _ _ _ Hpos). apply run_from_done.
  unfold step. destruct tail as [|c1 tail].
  - rewrite app_nil_r. by rewrite (extract_string_final "" g (chars "Arg")).
  - simpl in H1. rewrite andb_true_r in H1.
    rewrite extract_string_word; [|done..].
    destruct tail as [|c2 tail]; [done|]. simpl in H2.
    replace (read_arg_line ki (fresh (c1 :: c2 :: tail))) with
      (Threw Undefined : outcome (KernelInfo * istream)); [done|].
    unfold read_arg_line. cbn [read good fresh rdbuf eofbit failbit negb andb snd].
    unfold extract_size_t, sentry. cbn [good fresh rdbuf eofbit failbit negb andb].
    rewrite <- (app_nil_r tail), skipws_blank by done. simpl skipws.
    cbv beta iota. by rewrite !(skip_token_failed at_eof), (extract_string_failed "" at_eof).
Qed.

Lemma report_cut_after_arg_is_undefined_witness :
  MemRedAnalysisParser (report_file Cases.cut_after_arg_report)
  = Some (Threw Undefined).
Proof.
  apply (report_cut_after_arg_is_undefined
           (report_file Cases.cut_after_arg_report) 1 ∅ "f"
           {| funcName := "f"; memoryEffect := "None"; ptrArgInfos := [] |}
           [Sample.LF] (chars " #")); reflexivity.
Defined.

Lemma run_from_failed_header tbl name ki i :
  failbit i = true \/ i = at_end ->
  run_from (ArgHead tbl name ki i) = Some (Ok (<[name := ki]> tbl)).
Proof. intros [H| ->]; [by apply run_from_failed_arg|apply run_from_at_end]. Qed.

(** X10.  When the input ends right after a mangled name (with at
    most white space behind it), no error is raised: the block is
    recorded with an empty memory effect and no argument, and the
    constructor returns. *)
Theorem report_cut_after_name_is_accepted fs n tbl pre name c1 c2 g :
  advance n (start fs)
  = inl (BlockHead tbl (fresh (pre ++ "@"%char :: chars name ++ [c1; c2] ++ g))) ->
  no_at pre = true -> spaceless name = true ->
  (Z.of_nat (length (chars name)) + 2 <=? SIZE_MAX) = true ->
  notspace c1 = true -> notspace c2 = true -> blank g = true ->
  MemRedAnalysisParser fs
  = Some (Ok (<[name := {| funcName := name; memoryEffect := "";
                            ptrArgInfos := [] |}]> tbl)).
Proof.
  intros Hpos Hpre Hname Hlen Hc1 Hc2 Hg. unfold MemRedAnalysisParser.
  rewrite (advance_run_from _ _ _ Hpos).
  assert (forallb notspace (chars name ++ [c1; c2]) = true) as Htok.
  { apply forallb_app_true; [done|]. simpl. by rewrite Hc1, Hc2. }
  assert (is_nil (chars name ++ [c1; c2]) = false) as Hne.
  { by destruct (chars name). }
  assert (exists i,
    step (BlockHead tbl (fresh (pre ++ "@"%char :: chars name ++ [c1; c2] ++ g)))
    = inl (ArgHead tbl name
             {| funcName := name; memoryEffect := ""; ptrArgInfos := [] |} i)
    /\ (failbit i = true \/ i = at_end)) as (i & S & Hi).
  { unfold step, find_at.
    cbn [ok good fresh failbit eofbit rdbuf negb andb].
    rewrite find_at_buf_app by done. cbn [fresh failbit negb].
    unfold read_header. rewrite app_assoc.
    destruct g as [|c g].
    - rewrite app_nil_r.
      rewrite (extract_string_final "" [] _ eq_refl Hne Htok
               : extract_string "" (fresh (chars name ++ [c1; c2])) = _).
      rewrite erase_last_two by (by apply Z.leb_le).
      unfold chars. rewrite string_of_list_ascii_of_string.
      eexists. split; [reflexivity|]. by left.
    - simpl in Hg. apply andb_true_iff in Hg as [Hc Hg].
      rewrite extract_string_first by done.
      rewrite erase_last_two by (by apply Z.leb_le).
      unfold chars. rewrite string_of_list_ascii_of_string.
      unfold skip_token at 2. rewrite extract_string_blank by (by simpl; rewrite Hc).
      cbn [snd]. rewrite (skip_token_failed at_eof) by done.
      rewrite (extract_string_failed "" at_eof) by done.
      eexists. split; [reflexivity|]. by left. }
  rewrite (run_from_step _ _ S). by apply run_from_failed_header.
Qed.

Lemma report_cut_after_name_is_accepted_witness :
  MemRedAnalysisParser (report_file Cases.cut_after_name_report)
  = Some (Ok {[ "f" := {| funcName := "f"; memoryEffect := "";
                          ptrArgInfos := [] |} ]}).
Proof.
  apply (report_cut_after_name_is_accepted
           (report_file Cases.cut_after_name_report) 0 ∅
           (chars "Function void f() (") "f" ")"%char ":"%char []); reflexivity.
Defined.

Lemma skip_token_final g w :
  blank g = true -> wf_word w = true ->
  skip_token (fresh (g ++ chars (text w))) = at_end.
Proof.
  intros Hg (H1 & H2 & _)%wf_word_inv. unfold skip_token.
  by rewrite extract_string_final.
Qed.

(** The last argument line of a report that ends with its capture value. *)
Lemma read_arg_line_final ki a :
  wf_arg a = true ->
  read_arg_line ki
    (fresh ([fst (a_pad a); snd (a_pad a)] ++ a_before a ++ a_digits a
            ++ a_after a ++ render_word (a_colon a) ++ render_word (a_label a)
            ++ render_word (a_effect a) ++ render_word (a_caplabel a)
            ++ chars (text (a_capture a))))
  = Ok (push_back ki (arg_info a), at_end).
Proof.
  intros (Hp & Hb & Hne & Hds & Hmax & Ha & Hc0 & Hc & Hl & He & Hcl & Hcap)%wf_arg_inv.
  unfold read_arg_line. cbn [app read good fresh rdbuf eofbit failbit negb andb snd].
  rewrite extract_size_t_digits; try done.
  2:{ apply starts_nondigit; [done|]. unfold render_word.
      rewrite <- app_assoc. by apply starts_app. }
  rewrite skip_token_word by done.
  rewrite skip_token_word by auto using wf_word_blank.
  rewrite extract_string_render by auto using wf_word_blank.
  rewrite skip_token_word by auto using wf_word_blank.
  by rewrite skip_token_final by auto using wf_word_blank.
Qed.

Lemma render_trim_arg a :
  render_arg (trim_arg a) =
  chars "Arg" ++ ([fst (a_pad a); snd (a_pad a)] ++ a_before a ++ a_digits a
    ++ a_after a ++ render_word (a_colon a) ++ render_word (a_label a)
    ++ render_word (a_effect a) ++ render_word (a_caplabel a)
    ++ chars (text (a_capture a))).
Proof.
  unfold render_arg, trim_arg, trim_word.
  cbn [a_pad a_before a_digits a_after a_colon a_label a_effect a_caplabel a_capture].
  unfold render_word at 5. cbn [text gap]. by rewrite app_nil_r.
Qed.

Lemma step_arg_final tbl name ki g a :
  blank g = true -> wf_arg a = true ->
  step (ArgHead tbl name ki (fresh (g ++ render_arg (trim_arg a))))
  = inl (ArgHead tbl name (push_back ki (arg_info a)) at_end).
Proof.
  intros Hg Ha. pose proof Ha as (Hp & _)%wf_arg_inv.
  unfold step. rewrite render_trim_arg.
  rewrite extract_string_word; [|done..].
  by rewrite read_arg_line_final.
Qed.

(** The header of a report that ends with the memory effect. *)
Lemma read_header_final b :
  wf_block b = true ->
  read_header (fresh (chars (b_name b) ++ [fst (b_close b); snd (b_close b)]
                      ++ b_gap b ++ render_word (b_memlabel b)
                      ++ render_word (b_efflabel b)
                      ++ chars (text (b_effect b))))
  = Ok (b_name b, header_info b, at_end).
Proof.
  unfold wf_block. rewrite !andb_true_iff.
  intros [[[[[[[[[[_ _] Hn] Hlen] Hc1] Hc2] Hg] Hw1] Hw2] Hw3] _].
  unfold read_header.
  set (cs' := b_gap b ++ _).
  rewrite (app_assoc (chars (b_name b)) _ cs').
  rewrite extract_string_first.
  - rewrite erase_last_two by (by apply Z.leb_le).
    unfold chars at 1 2. rewrite !string_of_list_ascii_of_string.
    unfold cs'.
    rewrite skip_token_word by auto using is_gap_blank.
    unfold render_word at 1. rewrite <- app_assoc.
    apply wf_word_inv in Hw2 as (? & ? & ? & ?).
    apply wf_word_inv in Hw3 as (? & ? & _).
    unfold skip_token. rewrite extract_string_word; auto using wf_word_blank, starts_app.
    cbn [snd]. rewrite extract_string_final by done.
    unfold chars. by rewrite string_of_list_ascii_of_string.
  - by destruct (chars (b_name b)).
  - apply forallb_app_true; [done|]. simpl. by rewrite Hc1, Hc2.
  - unfold cs'. auto using starts_app, is_gap_starts.
Qed.

Lemma trim_args_snoc l a : trim_args (l ++ [a]) = l ++ [trim_arg a].
Proof.
  induction l as [|x l IH]; simpl; [done|]. rewrite IH.
  by destruct l.
Qed.

Lemma render_args_app l1 l2 :
  render_args (l1 ++ l2) = render_args l1 ++ render_args l2.
Proof. unfold render_args. by rewrite map_app, concat_app. Qed.

Lemma wf_header_only b : wf_block b = true -> wf_block (header_only b) = true.
Proof.
  unfold wf_block. simpl. rewrite !andb_true_iff. tauto.
Qed.

(** The last block of a report that ends with its last word. *)
Lemma run_from_final_block tbl pre b :
  no_at pre = true -> wf_block b = true ->
  run_from (BlockHead tbl (fresh (pre ++ render_body (trim_block b))))
  = Some (Ok (record_block tbl b)).
Proof.
  intros Hpre Hb. pose proof Hb as (_ & Hl & Ha & He)%wf_block_inv.
  destruct (b_args b) as [|a0 l0] eqn:Hargs using rev_ind.
  - assert (step (BlockHead tbl (fresh (pre ++ render_body (trim_block b))))
            = inl (ArgHead tbl (b_name b) (header_info b) at_end)) as S.
    { assert (pre ++ render_body (trim_block b)
              = (pre ++ b_lead b) ++ "@"%char ::
                (chars (b_name b) ++ [fst (b_close b); snd (b_close b)]
                 ++ b_gap b ++ render_word (b_memlabel b)
                 ++ render_word (b_efflabel b) ++ chars (text (b_effect b)))) as E.
      { unfold render_body, trim_block, mangled_token. rewrite Hargs.
        cbn [b_lead b_name b_close b_gap b_memlabel b_efflabel b_effect b_args
             is_nil trim_args trim_word render_args map concat].
        unfold render_word at 3. cbn [text gap]. rewrite !app_nil_r.
        by rewrite <- !app_assoc. }
      unfold step, find_at. rewrite E.
      cbn [ok good fresh failbit eofbit rdbuf negb andb].
      rewrite find_at_buf_app by (by apply forallb_app_true).
      cbn [fresh failbit negb].
      by rewrite (read_header_final b). }
    rewrite (run_from_step _ _ S), run_from_at_end.
    unfold record_block, block_info, header_info. by rewrite Hargs.
  - clear IHl0. rename l0 into l, a0 into a.
    rewrite forallb_app in Ha. simpl in Ha. rewrite andb_true_r in Ha.
    apply andb_true_iff in Ha as [Hwl Hwa].
    assert (render_body (trim_block b)
            = render_body (header_only b) ++ render_args l
              ++ render_arg (trim_arg a)) as E.
    { unfold render_body, trim_block, header_only, mangled_token.
      rewrite Hargs, trim_args_snoc.
      cbn [b_lead b_name b_close b_gap b_memlabel b_efflabel b_effect b_args].
      replace (is_nil (l ++ [a])) with false by (by destruct l).
      rewrite render_args_app. unfold render_args at 2 3.
      cbn [map concat]. rewrite !app_nil_r. by rewrite <- !app_assoc. }
    rewrite E.
    erewrite run_from_step by (apply step_header; auto using wf_header_only).
    cbn [header_only b_args b_effect b_name render_args map concat app].
    erewrite run_from_reaches
      by (apply reaches_args; auto using wf_word_blank).
    erewrite run_from_step.
    2:{ apply step_arg_final; [|done].
        apply last_gap_blank; auto using wf_word_blank. }
    rewrite run_from_at_end. unfold record_block. do 3 f_equal.
    rewrite fold_push_back. unfold push_back, block_info, header_info, header_only.
    simpl. by rewrite Hargs, map_app.
Qed.

Lemma reaches_append p q r : reaches p q -> reaches q r -> reaches p r.
Proof. induction 1; [done|]. intros. eapply reaches_next; eauto. Qed.

Lemma reaches_trans_step p q r : reaches p q -> step q = inl r -> reaches p r.
Proof.
  intros H S. eapply reaches_append; [done|].
  eapply reaches_next; [done|apply reaches_here].
Qed.

(** Well-formed blocks followed by the keyword of a further block. *)
Lemma reaches_blocks bs : forall tbl pre b rest,
  no_at pre = true -> wf_block b = true -> forallb wf_block bs = true ->
  starts isspace rest = true ->
  reaches
    (BlockHead tbl (fresh (pre ++ render_body b ++ concat (map render_block bs)
                           ++ chars "Function" ++ rest)))
    (BlockHead (fold_left record_block (b :: bs) tbl) (fresh rest)).
Proof.
  induction bs as [|b' bs IH]; intros tbl pre b rest Hpre Hb Hbs Hrest.
  - cbn [map concat app].
    eapply reaches_trans_step; [by apply reaches_block|].
    pose proof Hb as (_ & _ & Ha & He)%wf_block_inv.
    apply step_function; [|done].
    apply last_gap_blank; auto using wf_word_blank.
  - simpl in Hbs. apply andb_true_iff in Hbs as [Hb' Hbs].
    pose proof Hb as (_ & _ & Ha & He)%wf_block_inv.
    pose proof Hb' as (Hs & Hl & _)%wf_block_inv.
    cbn [map concat]. unfold render_block at 1. rewrite <- !app_assoc.
    eapply reaches_append; [by apply reaches_block|].
    eapply reaches_next.
    + apply step_function; [apply last_gap_blank; auto using wf_word_blank|].
      unfold render_body. rewrite <- app_assoc. by apply starts_app.
    + rewrite <- (app_nil_l (render_body b' ++ _)). by apply IH.
Qed.

(** X9.  A well-formed report parses to the same table when the
    white space after its last word is missing, that is when the
    input ends right after the last capture value (or after the memory
    effect of a last block without argument lines). *)
Theorem final_white_space_is_optional pre bs b :
  wf pre (bs ++ [b]) = true ->
  MemRedAnalysisParser (report_file (render pre (bs ++ [trim_block b])))
  = Some (Ok (table_of (bs ++ [b]))).
Proof.
  unfold wf. intros [Hpre Hbs]%andb_true_iff.
  rewrite forallb_app in Hbs. simpl in Hbs. rewrite andb_true_r in Hbs.
  apply andb_true_iff in Hbs as [Hbs Hb].
  unfold MemRedAnalysisParser, start, report_file. rewrite String.eqb_refl.
  unfold render, table_of. cbn [ifstream]. rewrite fold_left_app. cbn [fold_left].
  destruct bs as [|b1 bs].
  - cbn [map concat app fold_left]. unfold render_block.
    rewrite app_nil_r, app_assoc.
    apply run_from_final_block; auto using no_at_function.
  - simpl in Hbs. apply andb_true_iff in Hbs as [Hb1 Hbs].
    rewrite map_app, concat_app. cbn [map concat]. rewrite app_nil_r.
    unfold render_block at 1 3. rewrite <- !app_assoc, (app_assoc pre).
    pose proof Hb as (Hs & _)%wf_block_inv.
    erewrite run_from_reaches.
    2:{ apply reaches_blocks; auto using no_at_function.
        unfold render_body, trim_block. cbn [b_lead]. by apply starts_app. }
    rewrite <- (app_nil_l (render_body (trim_block b))).
    by rewrite run_from_final_block.
Qed.

Lemma final_white_space_is_optional_witness :
  MemRedAnalysisParser
    (report_file (render [] ([Sample.foo_block "f" "None" []]
                             ++ [trim_block (Sample.foo_block "g" "ArgMemOnly" Sample.two_args)])))
  = Some (Ok (table_of ([Sample.foo_block "f" "None" []]
                        ++ [Sample.foo_block "g" "ArgMemOnly" Sample.two_args]))).
Proof.
  apply (final_white_space_is_optional [] [Sample.foo_block "f" "None" []]
           (Sample.foo_block "g" "ArgMemOnly" Sample.two_args)).
  reflexivity.
Defined.

End Edges.

(** * The constructor and [analyzeGraph] together *)

Section EndToEnd.
Import Report.

Lemma table_of_records_blocks bs : forall (m : table),
  fold_left record_block bs m
  = fold_left (fun m ki => <[funcName ki := ki]> m) (map block_info bs) m.
Proof. induction bs as [|b bs IH]; intros m; simpl; [done|]. apply IH. Qed.

(** X8.  Two well-formed reports whose blocks agree, in order,
    on name, memory effect and the stored (index, effect) pairs yield
    the same table: the text before ['@'], the ignored words, the
    capture values and the white space are not recorded. *)
Theorem only_names_effects_and_indices_matter pre1 bs1 pre2 bs2 :
  wf pre1 bs1 = true -> wf pre2 bs2 = true ->
  map block_info bs1 = map block_info bs2 ->
  MemRedAnalysisParser (report_file (render pre1 bs1))
  = MemRedAnalysisParser (report_file (render pre2 bs2)).
Proof.
  intros H1 H2 E. rewrite !parse_render by done.
  unfold table_of. by rewrite !table_of_records_blocks, E.
Qed.

Lemma only_names_effects_and_indices_matter_witness :
  MemRedAnalysisParser
    (report_file (render [] [Sample.foo_block "f" "None" [Sample.arg_line "0" "ReadOnly"]]))
  = MemRedAnalysisParser
      (report_file (render (chars "some text ")
         [Sample.foo_block "f" "None" [Sample.arg_line "00" "ReadOnly"]])).
Proof.
  apply (only_names_effects_and_indices_matter []
           [Sample.foo_block "f" "None" [Sample.arg_line "0" "ReadOnly"]]
           (chars "some text ")
           [Sample.foo_block "f" "None" [Sample.arg_line "00" "ReadOnly"]]);
    reflexivity.
Defined.

Lemma last_named_name k bs b : last_named k bs = Some b -> b_name b = k.
Proof.
  induction bs as [|b' bs IH]; simpl; [done|].
  destruct (last_named k bs); [by intros [= <-]; apply IH|].
  destruct (String.eqb_spec (b_name b') k); [by intros [= <-]|done].
Qed.

(** X20.  For a well-formed report and a graph of one kernel node
    whose function is named by a block of the report, [analyzeGraph]
    prints the node line, the function name, and one line per argument
    line of the last such block, provided each listed argument can be
    read. *)
Theorem analyzeGraph_on_a_known_kernel pre bs mem params b ls :
  wf pre bs = true ->
  last_named (func params) bs = Some b ->
  arg_value_lines mem (kernelParams params) (map arg_info (b_args b)) = Some ls ->
  analyzeGraph (report_file (render pre bs)) mem [KernelNode params]
  = Some (NodeLine 0 :: FuncNameLine (func params) :: ls, Ok tt).
Proof.
  intros Hwf Hb Hls. unfold analyzeGraph. rewrite parse_render by done.
  unfold annotate. simpl. unfold table_of.
  rewrite fold_record_lookup, Hb. simpl.
  rewrite print_args_lines, Hls. simpl.
  by rewrite (last_named_name _ _ _ Hb).
Qed.

Lemma analyzeGraph_on_a_known_kernel_witness :
  analyzeGraph (report_file Cases.foo_report) Sample.mem42 [Sample.foo_node]
  = Some ([NodeLine 0; FuncNameLine "foo"; ArgValueLine 3 "ReadOnly" 200], Ok tt).
Proof.
  apply (analyzeGraph_on_a_known_kernel []
           [Sample.foo_block "foo" "ArgMemOnly" [Sample.arg_line "3" "ReadOnly"]]
           Sample.mem42 {| func := "foo"; kernelParams := [10; 20; 30; 100; 40] |}
           (Sample.foo_block "foo" "ArgMemOnly" [Sample.arg_line "3" "ReadOnly"])
           [ArgValueLine 3 "ReadOnly" 200]); reflexivity.
Defined.

End EndToEnd.
